(** * Best Way Services landing page: the promo-lead endpoint

    A shallow embedding of the lead-intake code of the repository and the
    properties its specification states about it.  Four source files carry
    the endpoint [POST /api/promo-lead]:

    - [netlify/functions/promo-lead.js], the serverless function: e-mail
      only, no CRM forwarding (module [NetlifyPlain]);
    - a second version of the serverless function (listed as [part_000]):
      a name is required and the lead is forwarded to HubSpot (module
      [Netlify]);
    - [server.js], the standalone server the README keeps for local
      testing: a name is required, no CRM forwarding (module [Server]);
    - a second version of the server (listed as [part_001]), with the
      HubSpot forwarding (module [ServerHubSpot]).

    The constants, [json]/[sendJson], [isRateLimited] and [emailRegex] are
    textually the same in all four files and are embedded once; so are the
    five HubSpot functions of the two forwarding files.

    Requests are handled one at a time: a handler is a function of the
    state of the module and of the outside world, and [await] is
    sequencing. *)

From Stdlib Require Import ZArith NArith List String Ascii Lia Sorted DecimalString.
From Stdlib Require PrimFloat.
From stdpp Require Import base gmap list strings sorting.

Local Open Scope Z_scope.

(** ** JavaScript strings

    A JavaScript string is a sequence of 16-bit code units; [.length],
    [.trim()], regular expressions without the [u] flag and
    [Buffer.byteLength] all work on code units, so strings are lists of
    code units here.  Program constants are written with [lit]. *)

Abbreviation jsstring := (list N).

Definition lit (s : string) : jsstring :=
  List.map N_of_ascii (list_ascii_of_string s).

(** A string is truthy when it is not empty. *)
Definition nonempty (s : jsstring) : bool :=
  match s with [] => false | _ :: _ => true end.

(** The code units ECMAScript counts as white space or line terminators:
    what [\s] matches and what [trim] strips. *)
Definition isWhiteSpace (c : N) : bool :=
  bool_decide (c ∈ [0x09; 0x0A; 0x0B; 0x0C; 0x0D; 0x20; 0xA0; 0x1680; 0x2028;
                    0x2029; 0x202F; 0x205F; 0x3000; 0xFEFF]%N)
  || ((0x2000 <=? c) && (c <=? 0x200A))%N.

Fixpoint trimStart (s : jsstring) : jsstring :=
  match s with
  | [] => []
  | c :: rest => if isWhiteSpace c then trimStart rest else s
  end.

Definition trimEnd (s : jsstring) : jsstring := rev (trimStart (rev s)).

(** [String.prototype.trim] *)
Definition trim (s : jsstring) : jsstring := trimEnd (trimStart s).

(** [s.split(sep)] for a separator of one code unit. *)
Fixpoint split (sep : N) (s : jsstring) : list jsstring :=
  match s with
  | [] => [[]]
  | c :: rest =>
      if (c =? sep)%N then [] :: split sep rest
      else match split sep rest with
           | word :: words => (c :: word) :: words
           | [] => [[c]]
           end
  end.

(** [parts.join(sep)] *)
Fixpoint join (sep : jsstring) (parts : list jsstring) : jsstring :=
  match parts with
  | [] => []
  | [part] => part
  | part :: rest => part ++ sep ++ join sep rest
  end.

(** [s.replace(/\s+/g, " ")]: every maximal run of white space becomes one
    space.  [in_run] tells that the previous code unit was white space. *)
Fixpoint collapse_runs (in_run : bool) (s : jsstring) : jsstring :=
  match s with
  | [] => []
  | c :: rest =>
      if isWhiteSpace c
      then (if in_run then collapse_runs true rest else 0x20%N :: collapse_runs true rest)
      else c :: collapse_runs false rest
  end.

Definition isHighSurrogate (c : N) : bool := ((0xD800 <=? c) && (c <=? 0xDBFF))%N.
Definition isLowSurrogate (c : N) : bool := ((0xDC00 <=? c) && (c <=? 0xDFFF))%N.

(** [Buffer.byteLength(s, "utf8")]: the length of the UTF-8 encoding.  A
    surrogate pair takes four bytes, a lone surrogate is replaced by U+FFFD
    (three bytes). *)
Fixpoint byteLength (s : jsstring) : Z :=
  match s with
  | [] => 0
  | c :: rest =>
      if (c <? 0x80)%N then 1 + byteLength rest
      else if (c <? 0x800)%N then 2 + byteLength rest
      else if isHighSurrogate c then
        match rest with
        | d :: rest' =>
            if isLowSurrogate d then 4 + byteLength rest' else 3 + byteLength rest
        | [] => 3
        end
      else 3 + byteLength rest
  end.

(** The code units [encodeURIComponent] leaves as they are:
    [A-Z a-z 0-9 - _ . ! ~ * ' ( )]. *)
Definition uriUnreserved (c : N) : bool :=
  ((0x41 <=? c) && (c <=? 0x5A) || (0x61 <=? c) && (c <=? 0x7A)
   || (0x30 <=? c) && (c <=? 0x39))%N
  || bool_decide (c ∈ [0x2D; 0x5F; 0x2E; 0x21; 0x7E; 0x2A; 0x27; 0x28; 0x29]%N).

Definition hexDigit (n : N) : N :=
  (if n <? 10 then 0x30 + n else 0x41 + (n - 10))%N.

(** One octet as [%XX]. *)
Definition percent (octet : N) : jsstring :=
  [0x25; hexDigit (octet / 16); hexDigit (octet mod 16)]%N.

(** The UTF-8 octets of a code point. *)
Definition utf8 (v : N) : list N :=
  (if v <? 0x80 then [v]
   else if v <? 0x800 then [0xC0 + v / 0x40; 0x80 + v mod 0x40]
   else if v <? 0x10000 then
     [0xE0 + v / 0x1000; 0x80 + (v / 0x40) mod 0x40; 0x80 + v mod 0x40]
   else
     [0xF0 + v / 0x40000; 0x80 + (v / 0x1000) mod 0x40;
      0x80 + (v / 0x40) mod 0x40; 0x80 + v mod 0x40])%N.

(** [encodeURIComponent(s)]; [None] where the built-in throws a [URIError],
    which it does on a surrogate that is not part of a pair. *)
Fixpoint encodeURIComponent (s : jsstring) : option jsstring :=
  match s with
  | [] => Some []
  | c :: rest =>
      if uriUnreserved c then cons c <$> encodeURIComponent rest
      else if isLowSurrogate c then None
      else if isHighSurrogate c then
        match rest with
        | d :: rest' =>
            if isLowSurrogate d then
              app (concat (List.map percent
                     (utf8 ((c - 0xD800) * 0x400 + (d - 0xDC00) + 0x10000)%N)))
                <$> encodeURIComponent rest'
            else None
        | [] => None
        end
      else app (concat (List.map percent (utf8 c))) <$> encodeURIComponent rest
  end.

(** [String(n)] for an integer. *)
Definition Number_toString (n : Z) : jsstring :=
  lit (NilZero.string_of_int (Z.to_int n)).

(** ** Constants (identical in every file) *)

Definition MAX_BODY_SIZE : Z := 16 * 1024.
Definition RATE_WINDOW_MS : Z := 15 * 60 * 1000.
Definition RATE_MAX_REQUESTS : Z := 5.

(** ** Regular expressions

    The fragment [emailRegex] is written in: character classes,
    concatenation, [+] and [{n,}].  [test] on an anchored pattern without
    look-around or back-references answers whether the whole string belongs
    to the language of the pattern, which the derivative computes. *)

Inductive regex : Type :=
| Empty
| Eps
| Class (p : N → bool)
| Cat (r1 r2 : regex)
| Alt (r1 r2 : regex)
| Star (r : regex).

(** [r+] *)
Definition Plus (r : regex) : regex := Cat r (Star r).

(** [r{n,}] *)
Fixpoint AtLeast (n : nat) (r : regex) : regex :=
  match n with
  | O => Star r
  | S n' => Cat r (AtLeast n' r)
  end.

Fixpoint nullable (r : regex) : bool :=
  match r with
  | Empty => false
  | Eps => true
  | Class _ => false
  | Cat r1 r2 => nullable r1 && nullable r2
  | Alt r1 r2 => nullable r1 || nullable r2
  | Star _ => true
  end.

Fixpoint deriv (c : N) (r : regex) : regex :=
  match r with
  | Empty => Empty
  | Eps => Empty
  | Class p => if p c then Eps else Empty
  | Cat r1 r2 =>
      if nullable r1
      then Alt (Cat (deriv c r1) r2) (deriv c r2)
      else Cat (deriv c r1) r2
  | Alt r1 r2 => Alt (deriv c r1) (deriv c r2)
  | Star r1 => Cat (deriv c r1) (Star r1)
  end.

(** [r.test(s)] for a pattern anchored at both ends. *)
Fixpoint test (r : regex) (s : jsstring) : bool :=
  match s with
  | [] => nullable r
  | c :: rest => test (deriv c r) rest
  end.

(** The language of a pattern. *)
Inductive matches : regex → jsstring → Prop :=
| matches_eps : matches Eps []
| matches_class p c : p c = true → matches (Class p) [c]
| matches_cat r1 r2 s1 s2 :
    matches r1 s1 → matches r2 s2 → matches (Cat r1 r2) (s1 ++ s2)
| matches_alt_l r1 r2 s : matches r1 s → matches (Alt r1 r2) s
| matches_alt_r r1 r2 s : matches r2 s → matches (Alt r1 r2) s
| matches_star_nil r : matches (Star r) []
| matches_star_app r s1 s2 :
    matches r s1 → matches (Star r) s2 → matches (Star r) (s1 ++ s2).

(** [[^\s@]] *)
Definition notSpaceOrAt (c : N) : bool := negb (isWhiteSpace c || (c =? 0x40)%N).

(** [const emailRegex = /^[^\s@]+@[^\s@]+\.[^\s@]{2,}$/i;]  The pattern has
    no letters and no code unit folds to white space or to [@], so the [i]
    flag changes nothing. *)
Definition emailRegex : regex :=
  Cat (Plus (Class notSpaceOrAt))
    (Cat (Class (λ c, (c =? 0x40)%N))
       (Cat (Plus (Class notSpaceOrAt))
          (Cat (Class (λ c, (c =? 0x2E)%N))
             (AtLeast 2 (Class notSpaceOrAt))))).

(** The shape of an accepted address in the words of the specification: a
    non-empty local part, an at sign, a non-empty domain, a dot and a suffix
    of at least two code units, none of them white space or an at sign. *)
Definition spec_email_shape (s : jsstring) : Prop :=
  ∃ localPart domain suffix,
    s = localPart ++ [0x40%N] ++ domain ++ [0x2E%N] ++ suffix
    ∧ localPart ≠ [] ∧ domain ≠ [] ∧ (2 ≤ length suffix)%nat
    ∧ Forall (λ c, notSpaceOrAt c = true) localPart
    ∧ Forall (λ c, notSpaceOrAt c = true) domain
    ∧ Forall (λ c, notSpaceOrAt c = true) suffix.

(** ** JSON values

    What [JSON.parse] yields and what [JSON.stringify] is given.  A number is
    an IEEE double.  [undefined], which JSON never yields, is the [None] of
    [option JsValue]. *)

#[warnings="-register-all"]
Inductive JsValue : Type :=
| JNull
| JBool (b : bool)
| JNum (x : PrimFloat.float)
| JStr (s : jsstring)
| JArr (items : list JsValue)
| JObj (fields : list (jsstring * JsValue)).

(** The own property [key] of an object given by its fields. *)
Fixpoint own (key : jsstring) (fields : list (jsstring * JsValue)) : option JsValue :=
  match fields with
  | [] => None
  | (k, v) :: rest => if bool_decide (k = key) then Some v else own key rest
  end.

(** Truthiness, as [||] and [if] test it. *)
Definition truthy (v : option JsValue) : bool :=
  match v with
  | None | Some JNull => false
  | Some (JBool b) => b
  | Some (JNum x) => negb (PrimFloat.is_zero x || PrimFloat.is_nan x)
  | Some (JStr s) => nonempty s
  | Some (JArr _) | Some (JObj _) => true
  end.

(** [a || b] *)
Definition orElse (a : option JsValue) (b : JsValue) : JsValue :=
  match a with
  | Some v => if truthy a then v else b
  | None => b
  end.

(** ** Exceptions *)

Inductive JsError : Type :=
| TypeError
    (* a property read on [null] *)
| URIError
    (* [encodeURIComponent] on a lone surrogate *)
| FetchFailed (reason : jsstring)
    (* [fetch] rejected: no response came *)
| HubSpotFailed (stage : string) (status : Z) (detail : JsValue)
    (* [new Error(`HubSpot ${stage} failed (${status}): ${detail}`)] *)
| PAYLOAD_TOO_LARGE
    (* [new Error("PAYLOAD_TOO_LARGE")] *)
| StreamError.
    (* the [error] event of the request stream *)

Inductive Result (A : Type) : Type :=
| Ok (a : A)
| Throw (e : JsError).
Arguments Ok {A} a.
Arguments Throw {A} e.

(** [v.key].  Reading a property of [null] throws; the properties the code
    reads (name, email, source, createdAt, pagePath, userAgent, company,
    message, error) are inherited by no array, string, number or boolean, so
    on those the read is [undefined]. *)
Definition member (v : JsValue) (key : jsstring) : Result (option JsValue) :=
  match v with
  | JNull => Throw TypeError
  | JObj fields => Ok (own key fields)
  | _ => Ok None
  end.

(** The property [key] of a parsed body that is not [null], and the trimmed
    string the handlers take from it when it is a string. *)
Definition field (parsed : JsValue) (key : string) : option JsValue :=
  match parsed with
  | JObj fields => own (lit key) fields
  | _ => None
  end.

Definition stringField (parsed : JsValue) (key : string) : option jsstring :=
  match field parsed key with
  | Some (JStr s) => Some (trim s)
  | _ => None
  end.

(** A parsed body that passes the honeypot and the validation of the
    name-collecting handlers: no company, a name of two code units or more,
    an address the pattern accepts. *)
Definition validLead (parsed : JsValue) : Prop :=
  default [] (stringField parsed "company") = []
  ∧ (2 ≤ length (default [] (stringField parsed "name")))%nat
  ∧ test emailRegex (default [] (stringField parsed "email")) = true.

(** ** Responses *)

(** The object [json] returns and [sendJson] writes.  [body] is the payload
    that [JSON.stringify] serialises. *)
Record Response : Type := mkResponse {
  statusCode : Z;
  headers : gmap string string;
  body : JsValue }.

(** [function json(statusCode, payload, extraHeaders = {})], and
    [sendJson(res, statusCode, payload, extraHeaders = {})] of the
    standalone server, which writes the same status, headers and body to
    [res].  The spread [...extraHeaders] comes last in the object literal, so
    its entries win: the union of maps is left-biased. *)
Definition json (statusCode : Z) (payload : JsValue) (extraHeaders : gmap string string)
  : Response :=
  {| statusCode := statusCode;
     headers := extraHeaders ∪ {[ "Content-Type" := "application/json; charset=utf-8";
                                 "Cache-Control" := "no-store" ]};
     body := payload |}.

(** The response tells caches to keep nothing. *)
Definition noStore (response : Response) : Prop :=
  headers response !! "Cache-Control" = Some "no-store".

(** How a handler may end: with a response that carries the header, or with
    the [TypeError] nothing in it catches. *)
Definition endsNoStore (r : Result Response) : Prop :=
  match r with
  | Ok response => noStore response
  | Throw e => e = TypeError
  end.

(** [{ ok: false, error: message }] *)
Definition failure (message : string) : JsValue :=
  JObj [(lit "ok", JBool false); (lit "error", JStr (lit message))].

(** ** The sliding-window rate limiter

    [requestBuckets] is a module-level [Map] from the client IP to an array
    of timestamps.  [Date.now()] yields integral milliseconds, far below
    2^53, so the timestamps and their differences are exact and are modelled
    in [Z].  The reading of the clock is the argument [now]. *)

Abbreviation Buckets := (gmap (list N) (list Z)).

(** [function isRateLimited(ip)]:
<<
  const now = Date.now();
  const current = requestBuckets.get(ip) || [];
  const withinWindow = current.filter((timestamp) => now - timestamp < RATE_WINDOW_MS);
  withinWindow.push(now);
  requestBuckets.set(ip, withinWindow);
  return withinWindow.length > RATE_MAX_REQUESTS;
>>
    The result pairs the returned boolean with the updated map. *)
Definition isRateLimited (now : Z) (ip : jsstring) (requestBuckets : Buckets)
  : bool * Buckets :=
  let current := default [] (requestBuckets !! ip) in
  let withinWindow := filter (λ timestamp, now - timestamp < RATE_WINDOW_MS) current in
  let withinWindow := withinWindow ++ [now] in
  (bool_decide (Z.of_nat (length withinWindow) > RATE_MAX_REQUESTS),
   <[ip := withinWindow]> requestBuckets).

(** The bucket of a client, as [isRateLimited] reads it. *)
Definition bucket (ip : jsstring) (requestBuckets : Buckets) : list Z :=
  default [] (requestBuckets !! ip).

(** A run of checks made one after the other, each with its own clock
    reading and client; the answers are collected in order. *)
Fixpoint run_checks (checks : list (Z * jsstring)) (requestBuckets : Buckets)
  : list bool * Buckets :=
  match checks with
  | [] => ([], requestBuckets)
  | (now, ip) :: rest =>
      let '(limited, requestBuckets') := isRateLimited now ip requestBuckets in
      let '(answers, final) := run_checks rest requestBuckets' in
      (limited :: answers, final)
  end.

(** The states the module can be in when the clock never goes back:
    [reachable t m] says that [m] results from a series of checks on the
    initially empty map, the last clock reading being at most [t]. *)
Inductive reachable : Z → Buckets → Prop :=
| reachable_start t : reachable t ∅
| reachable_check t now ip m :
    reachable t m → t ≤ now →
    reachable now (isRateLimited now ip m).2.

(** The filter as the specification words it: the closed interval
    [[T - windowDuration, T]]. *)
Definition spec_closed_window (now : Z) (current : list Z) : list Z :=
  filter (λ timestamp, now - RATE_WINDOW_MS ≤ timestamp ≤ now) current.

(** ** The lead and the CRM messages *)

(** The object [lead] of the handlers.  The e-mail-only function builds it
    without the property [name]. *)
Record Lead : Type := mkLead {
  name : option jsstring;
  email : jsstring;
  source : jsstring;
  createdAt : jsstring;
  createdAtClient : jsstring;
  pagePath : jsstring;
  userAgent : jsstring;
  ip : jsstring }.

(** The object [properties] sent to HubSpot; [lastname] is set only when it
    is not empty. *)
Record Properties : Type := mkProperties {
  p_email : jsstring;
  firstname : jsstring;
  lastname : option jsstring }.

(** One call of [fetch]: the URL, the method, the [Authorization] header and
    the object serialised as the body, [{ properties }]. *)
Record FetchRequest : Type := mkFetchRequest {
  url : jsstring;
  fetch_method : jsstring;
  authorization : jsstring;
  properties : Properties }.

(** What the code reads of a [fetch] response; [text] is what
    [await response.text()] yields.  [ok] is, by the Fetch standard, that
    the status is in the range 200 to 299. *)
Record FetchResponse : Type := mkFetchResponse {
  status : Z;
  statusText : jsstring;
  text : jsstring }.

Definition ok (response : FetchResponse) : bool :=
  (200 <=? status response) && (status response <=? 299).

Inductive FetchResult : Type :=
| Responded (response : FetchResponse)
| NetworkError (reason : jsstring).

(** The lines written to the console. *)
Inductive LogEntry : Type :=
| LogLead (lead : Lead)
    (* console.log("[promo-lead] %s", JSON.stringify(lead)) *)
| WarnSkipped
    (* console.warn("[promo-lead] HubSpot sync skipped because ...") *)
| LogContact (action : string)
    (* console.log("[promo-lead] HubSpot contact %s.", action) *)
| ErrorSync (message : JsError).
    (* console.error("[promo-lead] HubSpot sync error: %s", message) *)

(** ** The host

    What the code takes from its runtime and its environment: the two
    HubSpot settings read from [process.env] when the module loads, the
    built-ins whose tables are not part of the repository, the clock and the
    network.  The outside world is a state [W] that answers a reading of the
    clock and a [fetch] and moves on.  [JSON_parse] is [None] where
    [JSON.parse] throws. *)
Class Host (W : Type) : Type := mkHost {
  HUBSPOT_API_BASE : jsstring;
  HUBSPOT_ACCESS_TOKEN : jsstring;
  JSON_parse : jsstring → option JsValue;
  toLowerCase : jsstring → jsstring;
  toISOString : Z → jsstring;
  base64_to_utf8 : jsstring → jsstring;
  Date_now : W → Z * W;
  fetch : FetchRequest → W → FetchResult * W }.

(** The same host with another parser in the place of [JSON.parse]. *)
Definition withParser {W : Type} (host : Host W) (parse : jsstring → option JsValue)
  : Host W :=
  {| HUBSPOT_API_BASE := HUBSPOT_API_BASE;
     HUBSPOT_ACCESS_TOKEN := HUBSPOT_ACCESS_TOKEN;
     JSON_parse := parse;
     toLowerCase := toLowerCase;
     toISOString := toISOString;
     base64_to_utf8 := base64_to_utf8;
     Date_now := Date_now;
     fetch := fetch |}.

(** ** The state of a run and the monad of the handlers

    The module's [requestBuckets], the outside world, the [fetch] calls made
    so far (oldest first) and the console.  A computation takes the state and
    returns a value or throws, with the new state; [await] is sequencing,
    one request being handled at a time. *)
Record State (W : Type) : Type := mkState {
  requestBuckets : Buckets;
  world : W;
  calls : list FetchRequest;
  console : list LogEntry }.
Arguments mkState {W} _ _ _ _.
Arguments requestBuckets {W} _.
Arguments world {W} _.
Arguments calls {W} _.
Arguments console {W} _.

Definition M (W A : Type) : Type := State W → Result A * State W.

Definition ret {W A} (a : A) : M W A := λ st, (Ok a, st).

Definition throw {W A} (e : JsError) : M W A := λ st, (Throw e, st).

Definition bind {W A B} (c : M W A) (k : A → M W B) : M W B :=
  λ st, match c st with
        | (Ok a, st') => k a st'
        | (Throw e, st') => (Throw e, st')
        end.

(** [try { c } catch (error) { h error }] *)
Definition try_catch {W A} (c : M W A) (h : JsError → M W A) : M W A :=
  λ st, match c st with
        | (Ok a, st') => (Ok a, st')
        | (Throw e, st') => h e st'
        end.

Definition lift {W A} (r : Result A) : M W A := λ st, (r, st).

(** [post c Q]: however [c] ends, and from whatever state, its outcome
    satisfies [Q]. *)
Definition post {W A} (c : M W A) (Q : Result A → Prop) : Prop :=
  ∀ st, Q (c st).1.

Notation "'let*' x := c1 'in' c2" := (bind c1 (λ x, c2))
  (at level 10, x name, c1 at level 100, c2 at level 200).

Section Effects.
Context {W : Type} {host : Host W}.

(** [Date.now()] *)
Definition clock : M W Z :=
  λ st, let '(t, w) := Date_now (world st) in
        (Ok t, mkState (requestBuckets st) w (calls st) (console st)).

(** [new Date().toISOString()] *)
Definition isoNow : M W jsstring :=
  let* t := clock in ret (toISOString t).

(** [isRateLimited(ip)] on the module's map, the clock read from the world. *)
Definition rateLimit (ip : jsstring) : M W bool :=
  let* t := clock in
  λ st, let '(limited, buckets) := isRateLimited t ip (requestBuckets st) in
        (Ok limited, mkState buckets (world st) (calls st) (console st)).

(** [console.log], [console.warn], [console.error] *)
Definition log (entry : LogEntry) : M W unit :=
  λ st, (Ok tt, mkState (requestBuckets st) (world st) (calls st) (console st ++ [entry])).

(** [await fetch(...)]: the call is recorded, the world answers. *)
Definition do_fetch (request : FetchRequest) : M W FetchResponse :=
  λ st, let '(answer, w) := fetch request (world st) in
        let st' := mkState (requestBuckets st) w (calls st ++ [request]) (console st) in
        match answer with
        | Responded response => (Ok response, st')
        | NetworkError reason => (Throw (FetchFailed reason), st')
        end.

(** [typeof parsed.key === "string" ? parsed.key.trim() : fallback] *)
Definition trimmedString (parsed : JsValue) (key : string) (fallback : M W jsstring)
  : M W jsstring :=
  let* v := lift (member parsed (lit key)) in
  match v with
  | Some (JStr s) => ret (trim s)
  | _ => fallback
  end.

(** [rawBody ? JSON.parse(rawBody) : {}], [None] where [JSON.parse] throws. *)
Definition parseRawBody (rawBody : jsstring) : option JsValue :=
  if nonempty rawBody then JSON_parse rawBody else Some (JObj []).

(** Two states that differ at most in the outside world. *)
Definition sameModule (st st' : State W) : Prop :=
  requestBuckets st' = requestBuckets st
  ∧ calls st' = calls st
  ∧ console st' = console st.

(** A CRM that answers every request satisfying [P], whatever the state of
    the world, with a response satisfying [Q]. *)
Definition answers (P : FetchRequest → Prop) (Q : FetchResponse → Prop) : Prop :=
  ∀ request w, P request →
    ∃ response w', fetch request w = (Responded response, w') ∧ Q response.

(** The clock reading the next [Date.now()] gets in a state. *)
Definition nextClock (st : State W) : Z := (Date_now (world st)).1.

End Effects.

(** ** Forwarding to HubSpot

    The same five functions stand in both forwarding files. *)

Section HubSpot.
Context {W : Type} {host : Host W}.

(** [function splitName(name)] returns [{ firstName, lastName }]. *)
Definition splitName (name : jsstring) : jsstring * jsstring :=
  let normalized := trim (collapse_runs false name) in
  if negb (nonempty normalized) then ([], [])
  else match split 0x20%N normalized with
       | firstName :: rest => (firstName, join (lit " ") rest)
       | [] => ([], [])
       end.

(** [async function getHubSpotErrorMessage(response)].  The value returned
    is interpolated into the message of the error; it is kept as a value.
<<
  const raw = await response.text();
  if (!raw) { return `${response.status} ${response.statusText}`.trim(); }
  try {
    const parsed = JSON.parse(raw);
    return parsed.message || parsed.error || raw;
  } catch (error) { return raw; }
>> *)
Definition getHubSpotErrorMessage (response : FetchResponse) : JsValue :=
  let raw := text response in
  if negb (nonempty raw)
  then JStr (trim (Number_toString (status response) ++ lit " " ++ statusText response))
  else match JSON_parse raw with
       | None => JStr raw
       | Some parsed =>
           match member parsed (lit "message"), member parsed (lit "error") with
           | Ok message, Ok error => orElse message (orElse error (JStr raw))
           | _, _ => JStr raw
           end
       end.

(** What [callHubSpot] returns: [{ skipped: true }] or
    [{ skipped: false, response }]. *)
Inductive CallResult : Type :=
| CallSkipped
| Called (response : FetchResponse).

(** [async function callHubSpot(path, method, body)], with [body] the object
    [{ properties }]. *)
Definition callHubSpot (path : jsstring) (method : jsstring) (body : Properties)
  : M W CallResult :=
  if negb (nonempty HUBSPOT_ACCESS_TOKEN) then ret CallSkipped
  else
    let* response :=
      do_fetch {| url := HUBSPOT_API_BASE ++ path;
                  fetch_method := method;
                  authorization := lit "Bearer " ++ HUBSPOT_ACCESS_TOKEN;
                  properties := body |} in
    ret (Called response).

(** What [syncLeadToHubSpot] returns: [{ skipped: true }] or
    [{ skipped: false, action }]. *)
Inductive SyncResult : Type :=
| Skipped
| Synced (action : string).

(** [async function syncLeadToHubSpot(lead)].  The path of the update is a
    template literal, so [encodeURIComponent(lead.email)] is evaluated, and
    may throw, before [callHubSpot] is entered; [splitName] of a lead
    without a name would read a property of [undefined]. *)
Definition syncLeadToHubSpot (lead : Lead) : M W SyncResult :=
  if negb (nonempty HUBSPOT_ACCESS_TOKEN) then ret Skipped
  else
    match name lead with
    | None => throw TypeError
    | Some leadName =>
        let '(firstName, lastName) := splitName leadName in
        let properties :=
          {| p_email := email lead;
             firstname := firstName;
             lastname := if nonempty lastName then Some lastName else None |} in
        match encodeURIComponent (email lead) with
        | None => throw URIError
        | Some encoded =>
            let* patchResult :=
              callHubSpot
                (lit "/crm/v3/objects/contacts/" ++ encoded ++ lit "?idProperty=email")
                (lit "PATCH") properties in
            match patchResult with
            | CallSkipped => ret Skipped
            | Called patchResponse =>
                if ok patchResponse then ret (Synced "updated")
                else if negb (status patchResponse =? 404) then
                  throw (HubSpotFailed "update" (status patchResponse)
                           (getHubSpotErrorMessage patchResponse))
                else
                  let* createResult :=
                    callHubSpot (lit "/crm/v3/objects/contacts") (lit "POST") properties in
                  match createResult with
                  | CallSkipped => ret Skipped
                  | Called createResponse =>
                      if ok createResponse then ret (Synced "created")
                      else throw (HubSpotFailed "create" (status createResponse)
                                    (getHubSpotErrorMessage createResponse))
                  end
            end
        end
    end.

End HubSpot.

(** [{ ok: true }] and [{ ok: true, coupon: "BEST10" }] *)
Definition okPayload : JsValue := JObj [(lit "ok", JBool true)].
Definition couponPayload : JsValue :=
  JObj [(lit "ok", JBool true); (lit "coupon", JStr (lit "BEST10"))].

(** [a || b] on two header values, each a string or [undefined]. *)
Definition orHeader (a b : option jsstring) : option jsstring :=
  match a with
  | Some (_ :: _) => a
  | _ => b
  end.

(** ** The serverless function with HubSpot forwarding ([part_000]) *)

Module Netlify.

(** The fields of the Netlify event the handler reads. *)
Record Event : Type := mkEvent {
  httpMethod : jsstring;
  ev_headers : gmap (list N) (list N);
  ev_body : option jsstring;
  isBase64Encoded : bool }.

(** [function getClientIp(event)] *)
Definition getClientIp (event : Event) : jsstring :=
  let forwarded := orHeader (ev_headers event !! lit "x-forwarded-for")
                            (ev_headers event !! lit "X-Forwarded-For") in
  match forwarded with
  | Some f =>
      if nonempty (trim f) then trim (hd [] (split 0x2C%N f)) else lit "unknown"
  | None => lit "unknown"
  end.

Section Handler.
Context {W : Type} {host : Host W}.

(** [const rawBody = event.isBase64Encoded
      ? Buffer.from(event.body || "", "base64").toString("utf8")
      : event.body || "";] *)
Definition rawBodyOf (event : Event) : jsstring :=
  if isBase64Encoded event
  then base64_to_utf8 (default [] (ev_body event))
  else default [] (ev_body event).

(** A POST request that is not too large, that the rate limiter lets
    through in the state [st], and whose body parses to [parsed]. *)
Definition accepted (event : Event) (st : State W) (parsed : JsValue) : Prop :=
  httpMethod event = lit "POST"
  ∧ byteLength (rawBodyOf event) ≤ MAX_BODY_SIZE
  ∧ (isRateLimited (nextClock st) (getClientIp event) (requestBuckets st)).1 = false
  ∧ parseRawBody (rawBodyOf event) = Some parsed.

(** [exports.handler = async function handler(event)].  The seven field
    reads, each [typeof parsed.f === "string" ? parsed.f.trim() : fallback],
    come in the order of the source.  The [try]/[catch] around the
    forwarding is the computation [failed]: the response its [catch]
    returns with, or nothing when control goes on to the last [return]. *)
Definition handler (event : Event) : M W Response :=
  if bool_decide (httpMethod event = lit "OPTIONS") then
    ret (json 204 (JObj []) {[ "Allow" := "POST, OPTIONS" ]})
  else if negb (bool_decide (httpMethod event = lit "POST")) then
    ret (json 405 (failure "Method not allowed.") {[ "Allow" := "POST" ]})
  else
    let rawBody := rawBodyOf event in
    if byteLength rawBody >? MAX_BODY_SIZE then
      ret (json 413 (failure "Payload too large.") ∅)
    else
      let ip := getClientIp event in
      let* limited := rateLimit ip in
      if limited then
        ret (json 429 (failure "Too many requests. Try again later.") ∅)
      else
        match parseRawBody rawBody with
        | None => ret (json 400 (failure "Invalid request body.") ∅)
        | Some parsed =>
            let* name := trimmedString parsed "name" (ret []) in
            let* email := trimmedString parsed "email" (ret []) in
            let* source := trimmedString parsed "source" (ret (lit "promo-email")) in
            let* createdAtClient := trimmedString parsed "createdAt" isoNow in
            let* pagePath := trimmedString parsed "pagePath" (ret (lit "/promo-email/")) in
            let* userAgent :=
              trimmedString parsed "userAgent"
                (ret (default [] (orHeader (ev_headers event !! lit "user-agent") (Some [])))) in
            let* company := trimmedString parsed "company" (ret []) in
            if nonempty company then
              ret (json 200 okPayload ∅)
            else if (Z.of_nat (length name) <? 2) then
              ret (json 400 (failure "Please send your name.") ∅)
            else if negb (test emailRegex email) then
              ret (json 400 (failure "Please send a valid email address.") ∅)
            else
              let* createdAt := isoNow in
              let lead :=
                {| name := Some name;
                   email := toLowerCase email;
                   source := if nonempty source then source else lit "promo-email";
                   createdAt := createdAt;
                   createdAtClient := createdAtClient;
                   pagePath := pagePath;
                   userAgent := userAgent;
                   ip := ip |} in
              let* _ := log (LogLead lead) in
              let* failed :=
                try_catch
                  (let* hubspotResult := syncLeadToHubSpot lead in
                   let* _ := match hubspotResult with
                             | Skipped => log WarnSkipped
                             | Synced action => log (LogContact action)
                             end in
                   ret None)
                  (λ error,
                     let* _ := log (ErrorSync error) in
                     ret (Some (json 502
                                  (failure "Unable to save your lead right now. Please try again.")
                                  ∅))) in
              match failed with
              | Some response => ret response
              | None => ret (json 200 couponPayload ∅)
              end
        end.

End Handler.
End Netlify.

(** ** The serverless function without forwarding
    ([netlify/functions/promo-lead.js])

    It receives the same event and has the same [getClientIp]; it collects
    no name and forwards nothing. *)

Module NetlifyPlain.
Import Netlify.

Section Handler.
Context {W : Type} {host : Host W}.

(** [exports.handler = async function handler(event)] *)
Definition handler (event : Event) : M W Response :=
  if bool_decide (httpMethod event = lit "OPTIONS") then
    ret (json 204 (JObj []) {[ "Allow" := "POST, OPTIONS" ]})
  else if negb (bool_decide (httpMethod event = lit "POST")) then
    ret (json 405 (failure "Method not allowed.") {[ "Allow" := "POST" ]})
  else
    let rawBody := rawBodyOf event in
    if byteLength rawBody >? MAX_BODY_SIZE then
      ret (json 413 (failure "Payload too large.") ∅)
    else
      let ip := getClientIp event in
      let* limited := rateLimit ip in
      if limited then
        ret (json 429 (failure "Too many requests. Try again later.") ∅)
      else
        match parseRawBody rawBody with
        | None => ret (json 400 (failure "Invalid request body.") ∅)
        | Some parsed =>
            let* email := trimmedString parsed "email" (ret []) in
            let* source := trimmedString parsed "source" (ret (lit "promo-email")) in
            let* createdAtClient := trimmedString parsed "createdAt" isoNow in
            let* pagePath := trimmedString parsed "pagePath" (ret (lit "/promo-email/")) in
            let* userAgent :=
              trimmedString parsed "userAgent"
                (ret (default [] (orHeader (ev_headers event !! lit "user-agent") (Some [])))) in
            let* company := trimmedString parsed "company" (ret []) in
            if nonempty company then
              ret (json 200 okPayload ∅)
            else if negb (test emailRegex email) then
              ret (json 400 (failure "Please send a valid email address.") ∅)
            else
              let* createdAt := isoNow in
              let lead :=
                {| name := None;
                   email := toLowerCase email;
                   source := if nonempty source then source else lit "promo-email";
                   createdAt := createdAt;
                   createdAtClient := createdAtClient;
                   pagePath := pagePath;
                   userAgent := userAgent;
                   ip := ip |} in
              let* _ := log (LogLead lead) in
              ret (json 200 couponPayload ∅)
        end.

End Handler.
End NetlifyPlain.

(** ** The standalone server ([server.js]) *)

Module Server.

(** How the body stream of a request ends: the [end] event or the [error]
    event. *)
Inductive StreamEnd : Type :=
| StreamEnded
| StreamFailed.

(** The fields of the incoming request the handler reads; the body arrives
    as [data] events, one per chunk, here already decoded to strings. *)
Record IncomingMessage : Type := mkIncomingMessage {
  method : jsstring;
  req_headers : gmap (list N) (list N);
  remoteAddress : option jsstring;
  chunks : list jsstring;
  streamEnd : StreamEnd }.

(** [function getClientIp(req)] *)
Definition getClientIp (req : IncomingMessage) : jsstring :=
  match req_headers req !! lit "x-forwarded-for" with
  | Some f =>
      if nonempty (trim f) then trim (hd [] (split 0x2C%N f))
      else match remoteAddress req with
           | Some socketAddress => socketAddress
           | None => lit "unknown"
           end
  | None =>
      match remoteAddress req with
      | Some socketAddress => socketAddress
      | None => lit "unknown"
      end
  end.

(** The events of [parseBody]'s promise: each chunk is appended to
    [rawBody], the promise is rejected as soon as the accumulated text is
    over the limit, resolved with the text at [end] and rejected at
    [error].  A promise settles once, so the first of these decides. *)
Fixpoint readChunks (rawBody : jsstring) (chunks : list jsstring) (fin : StreamEnd)
  : Result jsstring :=
  match chunks with
  | [] =>
      match fin with
      | StreamEnded => Ok rawBody
      | StreamFailed => Throw StreamError
      end
  | chunk :: rest =>
      let rawBody := rawBody ++ chunk in
      if byteLength rawBody >? MAX_BODY_SIZE then Throw PAYLOAD_TOO_LARGE
      else readChunks rawBody rest fin
  end.

(** [function parseBody(req)] *)
Definition parseBody (req : IncomingMessage) : Result jsstring :=
  readChunks [] (chunks req) (streamEnd req).

Section Handler.
Context {W : Type} {host : Host W}.

(** A POST request that the rate limiter lets through in the state [st],
    whose body arrives whole and within the limit and parses to [parsed]. *)
Definition accepted (req : IncomingMessage) (st : State W) (parsed : JsValue) : Prop :=
  method req = lit "POST"
  ∧ (isRateLimited (nextClock st) (getClientIp req) (requestBuckets st)).1 = false
  ∧ ∃ rawBody, parseBody req = Ok rawBody ∧ parseRawBody rawBody = Some parsed.

(** [async function handlePromoLead(req, res)]; the value is the response
    [sendJson] writes to [res].  The rate limiter is called before
    [parseBody]; the [catch] after [parseBody] and [JSON.parse] answers 413
    to the error [parseBody] rejects with for a large body and 400 to any
    other. *)
Definition handlePromoLead (req : IncomingMessage) : M W Response :=
  if bool_decide (method req = lit "OPTIONS") then
    ret (json 204 (JObj []) {[ "Allow" := "POST, OPTIONS" ]})
  else if negb (bool_decide (method req = lit "POST")) then
    ret (json 405 (failure "Method not allowed.") {[ "Allow" := "POST" ]})
  else
    let ip := getClientIp req in
    let* limited := rateLimit ip in
    if limited then
      ret (json 429 (failure "Too many requests. Try again later.") ∅)
    else
      match parseBody req with
      | Throw PAYLOAD_TOO_LARGE => ret (json 413 (failure "Payload too large.") ∅)
      | Throw _ => ret (json 400 (failure "Invalid request body.") ∅)
      | Ok rawBody =>
          match parseRawBody rawBody with
          | None => ret (json 400 (failure "Invalid request body.") ∅)
          | Some parsed =>
              let* name := trimmedString parsed "name" (ret []) in
              let* email := trimmedString parsed "email" (ret []) in
              let* source := trimmedString parsed "source" (ret (lit "promo-email")) in
              let* createdAtClient := trimmedString parsed "createdAt" isoNow in
              let* pagePath := trimmedString parsed "pagePath" (ret []) in
              let* userAgent :=
                trimmedString parsed "userAgent"
                  (ret (default [] (orHeader (req_headers req !! lit "user-agent") (Some [])))) in
              let* company := trimmedString parsed "company" (ret []) in
              if nonempty company then
                ret (json 200 okPayload ∅)
              else if (Z.of_nat (length name) <? 2) then
                ret (json 400 (failure "Please send your name.") ∅)
              else if negb (test emailRegex email) then
                ret (json 400 (failure "Please send a valid email address.") ∅)
              else
                let* createdAt := isoNow in
                let lead :=
                  {| name := Some name;
                     email := toLowerCase email;
                     source := if nonempty source then source else lit "promo-email";
                     createdAt := createdAt;
                     createdAtClient := createdAtClient;
                     pagePath := if nonempty pagePath then pagePath else lit "/promo-email/";
                     userAgent := userAgent;
                     ip := ip |} in
                let* _ := log (LogLead lead) in
                ret (json 200 couponPayload ∅)
          end
      end.

(** The branch of the server's request listener for [/api/promo-lead]:
    whatever [handlePromoLead] throws is answered with 500. *)
Definition servePromoLead (req : IncomingMessage) : M W Response :=
  try_catch (handlePromoLead req)
    (λ _, ret (json 500 (failure "Internal server error.") ∅)).

End Handler.
End Server.

(** ** The standalone server with HubSpot forwarding ([part_001])

    The request, [getClientIp] and [parseBody] are those of [server.js]. *)

Module ServerHubSpot.
Import Server.

Section Handler.
Context {W : Type} {host : Host W}.

(** [async function handlePromoLead(req, res)] *)
Definition handlePromoLead (req : IncomingMessage) : M W Response :=
  if bool_decide (method req = lit "OPTIONS") then
    ret (json 204 (JObj []) {[ "Allow" := "POST, OPTIONS" ]})
  else if negb (bool_decide (method req = lit "POST")) then
    ret (json 405 (failure "Method not allowed.") {[ "Allow" := "POST" ]})
  else
    let ip := getClientIp req in
    let* limited := rateLimit ip in
    if limited then
      ret (json 429 (failure "Too many requests. Try again later.") ∅)
    else
      match parseBody req with
      | Throw PAYLOAD_TOO_LARGE => ret (json 413 (failure "Payload too large.") ∅)
      | Throw _ => ret (json 400 (failure "Invalid request body.") ∅)
      | Ok rawBody =>
          match parseRawBody rawBody with
          | None => ret (json 400 (failure "Invalid request body.") ∅)
          | Some parsed =>
              let* name := trimmedString parsed "name" (ret []) in
              let* email := trimmedString parsed "email" (ret []) in
              let* source := trimmedString parsed "source" (ret (lit "promo-email")) in
              let* createdAtClient := trimmedString parsed "createdAt" isoNow in
              let* pagePath := trimmedString parsed "pagePath" (ret []) in
              let* userAgent :=
                trimmedString parsed "userAgent"
                  (ret (default [] (orHeader (req_headers req !! lit "user-agent") (Some [])))) in
              let* company := trimmedString parsed "company" (ret []) in
              if nonempty company then
                ret (json 200 okPayload ∅)
              else if (Z.of_nat (length name) <? 2) then
                ret (json 400 (failure "Please send your name.") ∅)
              else if negb (test emailRegex email) then
                ret (json 400 (failure "Please send a valid email address.") ∅)
              else
                let* createdAt := isoNow in
                let lead :=
                  {| name := Some name;
                     email := toLowerCase email;
                     source := if nonempty source then source else lit "promo-email";
                     createdAt := createdAt;
                     createdAtClient := createdAtClient;
                     pagePath := if nonempty pagePath then pagePath else lit "/promo-email/";
                     userAgent := userAgent;
                     ip := ip |} in
                let* _ := log (LogLead lead) in
                let* failed :=
                  try_catch
                    (let* hubspotResult := syncLeadToHubSpot lead in
                     let* _ := match hubspotResult with
                               | Skipped => log WarnSkipped
                               | Synced action => log (LogContact action)
                               end in
                     ret None)
                    (λ error,
                       let* _ := log (ErrorSync error) in
                       ret (Some (json 502
                                    (failure "Unable to save your lead right now. Please try again.")
                                    ∅))) in
                match failed with
                | Some response => ret response
                | None => ret (json 200 couponPayload ∅)
                end
          end
      end.

(** The branch of the server's request listener for [/api/promo-lead]. *)
Definition servePromoLead (req : IncomingMessage) : M W Response :=
  try_catch (handlePromoLead req)
    (λ _, ret (json 500 (failure "Internal server error.") ∅)).

End Handler.
End ServerHubSpot.

(** ** A small host and sample requests

    Concrete data on which the statements below are run: a host whose parser
    knows six documents, whose clock ticks once per reading from 1000 and
    whose network is a CRM given as a function of the request. *)

Definition quote : jsstring := [0x22%N].

(** The JSON text of a flat object of strings without escapes, and the value
    it parses to. *)
Definition flatText (fields : list (string * string)) : jsstring :=
  lit "{"
  ++ join (lit ",")
       (List.map (λ kv, quote ++ lit kv.1 ++ quote ++ lit ":" ++ quote ++ lit kv.2 ++ quote)
          fields)
  ++ lit "}".

Definition flatValue (fields : list (string * string)) : JsValue :=
  JObj (List.map (λ kv, (lit kv.1, JStr (lit kv.2))) fields).

Definition sampleLead : list (string * string) :=
  [("name", "John Smith"); ("email", "a@b.co"); ("company", "")].

Definition sampleHoneypot : list (string * string) :=
  [("name", "x"); ("email", "not-an-email"); ("company", "Acme Bots")].

Definition sampleBadEmail : list (string * string) :=
  [("name", "John Smith"); ("email", "not-an-email")].

(** A valid lead whose company is three spaces. *)
Definition sampleBlankCompany : list (string * string) :=
  [("name", "John Smith"); ("email", "a@b.co"); ("company", "   ")].

(** A valid lead whose company is an array holding a string. *)
Definition arrayCompanyText : jsstring :=
  lit "{" ++ quote ++ lit "name" ++ quote ++ lit ":" ++ quote ++ lit "John Smith" ++ quote
  ++ lit "," ++ quote ++ lit "email" ++ quote ++ lit ":" ++ quote ++ lit "a@b.co" ++ quote
  ++ lit "," ++ quote ++ lit "company" ++ quote ++ lit ":[" ++ quote ++ lit "Acme Bots"
  ++ quote ++ lit "]}".

Definition arrayCompanyValue : JsValue :=
  JObj [(lit "name", JStr (lit "John Smith"));
        (lit "email", JStr (lit "a@b.co"));
        (lit "company", JArr [JStr (lit "Acme Bots")])].

(** A lead whose address starts with an unpaired surrogate, written in JSON
    with the escape [\ud800]. *)
Definition surrogateText : jsstring :=
  lit "{" ++ quote ++ lit "name" ++ quote ++ lit ":" ++ quote ++ lit "John Smith" ++ quote
  ++ lit "," ++ quote ++ lit "email" ++ quote ++ lit ":" ++ quote ++ lit "\ud800@b.co" ++ quote
  ++ lit "}".

Definition surrogateValue : JsValue :=
  JObj [(lit "name", JStr (lit "John Smith"));
        (lit "email", JStr (0xD800%N :: lit "@b.co"))].

Definition sampleDocuments : list (jsstring * JsValue) :=
  [(flatText sampleLead, flatValue sampleLead);
   (flatText sampleHoneypot, flatValue sampleHoneypot);
   (flatText sampleBadEmail, flatValue sampleBadEmail);
   (flatText sampleBlankCompany, flatValue sampleBlankCompany);
   (arrayCompanyText, arrayCompanyValue);
   (surrogateText, surrogateValue)].

Fixpoint sampleParse (documents : list (jsstring * JsValue)) (raw : jsstring)
  : option JsValue :=
  match documents with
  | [] => None
  | (text, value) :: rest =>
      if bool_decide (text = raw) then Some value else sampleParse rest raw
  end.

(** The sample host.  Its lower-casing covers A-Z only, it prints a time as
    a count of milliseconds and it decodes nothing: stand-ins for the
    built-ins, enough to run the sample requests, none of which is
    base64-encoded. *)
Definition sampleHost (token : jsstring) (crm : FetchRequest → FetchResponse) : Host Z :=
  {| HUBSPOT_API_BASE := lit "https://api.hubapi.com";
     HUBSPOT_ACCESS_TOKEN := token;
     JSON_parse := sampleParse sampleDocuments;
     toLowerCase :=
       List.map (λ c, if ((0x41 <=? c) && (c <=? 0x5A))%N then (c + 0x20)%N else c);
     toISOString := λ t, lit "T+" ++ Number_toString t ++ lit "ms";
     base64_to_utf8 := λ s, s;
     Date_now := λ w, (w, w + 1);
     fetch := λ request w, (Responded (crm request), w) |}.

(** A CRM that knows no contact and creates every one. *)
Definition crmCreates (request : FetchRequest) : FetchResponse :=
  if bool_decide (fetch_method request = lit "PATCH")
  then {| status := 404; statusText := lit "Not Found"; text := [] |}
  else {| status := 201; statusText := lit "Created"; text := [] |}.

(** A CRM that fails. *)
Definition crmFails (request : FetchRequest) : FetchResponse :=
  {| status := 500; statusText := lit "Internal Server Error"; text := [] |}.

Definition sampleIp : jsstring := lit "203.0.113.7".

Definition sampleToken : jsstring := lit "pat-na1-sample".

(** A POST of [body] from [sampleIp]. *)
Definition sampleEvent (body : jsstring) : Netlify.Event :=
  {| Netlify.httpMethod := lit "POST";
     Netlify.ev_headers := {[ lit "x-forwarded-for" := sampleIp ]};
     Netlify.ev_body := Some body;
     Netlify.isBase64Encoded := false |}.

Definition sampleRequest (chunks : list jsstring) : Server.IncomingMessage :=
  {| Server.method := lit "POST";
     Server.req_headers := {[ lit "x-forwarded-for" := sampleIp ]};
     Server.remoteAddress := Some (lit "127.0.0.1");
     Server.chunks := chunks;
     Server.streamEnd := Server.StreamEnded |}.

(** The module as it is with the given buckets, the clock at 1000, nothing
    sent and nothing logged. *)
Definition sampleState (buckets : Buckets) : State Z := mkState buckets 1000 [] [].



(** Five checks of [sampleIp] at 0..4 ms, and a single check at 0 ms. *)
Definition fiveChecks : Buckets := {[ sampleIp := [0; 1; 2; 3; 4] ]}.
Definition oneCheck : Buckets := {[ sampleIp := [0] ]}.

(** ** Vocabulary for the further properties *)

(** The checks of one client in a run that are less than a window old at
    time [T]. *)
Definition recent (T : Z) (ip : jsstring) (checks : list (Z * jsstring))
  : list (Z * jsstring) :=
  filter (λ check, check.2 = ip ∧ T - check.1 < RATE_WINDOW_MS) checks.

(** The clock never goes back along a run of checks. *)
Definition clockNeverGoesBack (checks : list (Z * jsstring)) : Prop :=
  StronglySorted (λ a b, a.1 ≤ b.1) checks.

(** [wp c st Q]: run from the state [st], [c] ends with an outcome and a
    state that satisfy [Q]. *)
Definition wp {W A : Type} (c : M W A) (st : State W) (Q : Result A → State W → Prop)
  : Prop :=
  Q (c st).1 (c st).2.

(** The methods of the CRM calls one request may add: none, an update, or
    an update followed by a create. *)
Definition forwardingShape (new : list FetchRequest) : Prop :=
  List.map fetch_method new = []
  ∨ List.map fetch_method new = [lit "PATCH"]
  ∨ List.map fetch_method new = [lit "PATCH"; lit "POST"].

(** Sample runs of checks: two clients interleaved, and six checks of one
    client in six milliseconds. *)
Definition mixedRun : list (Z * jsstring) :=
  [(0, sampleIp); (1, lit "198.51.100.9"); (2, sampleIp)].

Definition sixChecks : list (Z * jsstring) :=
  [(0, sampleIp); (1, sampleIp); (2, sampleIp); (3, sampleIp); (4, sampleIp); (5, sampleIp)].

(** The answers of the endpoint, as status and body. *)
Definition promoResponses : list (Z * JsValue) :=
  [ (204, JObj []);
    (405, failure "Method not allowed.");
    (413, failure "Payload too large.");
    (429, failure "Too many requests. Try again later.");
    (400, failure "Invalid request body.");
    (200, okPayload);
    (400, failure "Please send your name.");
    (400, failure "Please send a valid email address.");
    (502, failure "Unable to save your lead right now. Please try again.");
    (200, couponPayload) ].

(** A request that came through a proxy: the header lists the client and
    the proxy. *)
Definition proxiedEvent : Netlify.Event :=
  {| Netlify.httpMethod := lit "POST";
     Netlify.ev_headers := {[ lit "x-forwarded-for" := lit " 203.0.113.7 , 10.0.0.1" ]};
     Netlify.ev_body := None;
     Netlify.isBase64Encoded := false |}.

(** A lead as the validation lets it through, with an address that holds a
    slash and a question mark. *)
Definition sampleContact : Lead :=
  {| name := Some (lit "John Smith");
     email := lit "a/b?c@d.co";
     source := lit "promo-email";
     createdAt := lit "T+1001ms";
     createdAtClient := lit "T+1000ms";
     pagePath := lit "/promo-email/";
     userAgent := [];
     ip := sampleIp |}.

(** ** Requests one after the other

    A warm instance of the serverless function keeps its module state from
    one invocation to the next. *)

Section Serving.
Context {W : Type} {host : Host W}.

Fixpoint serve (events : list Netlify.Event) (st : State W)
  : list (Netlify.Event * Result Response) * State W :=
  match events with
  | [] => ([], st)
  | event :: rest =>
      let '(r, st') := Netlify.handler event st in
      let '(answers, final) := serve rest st' in
      ((event, r) :: answers, final)
  end.

(** The requests the function passes to the rate limiter: a POST whose body
    is within the size limit. *)
Definition reachesLimiter (event : Netlify.Event) : bool :=
  bool_decide (Netlify.httpMethod event = lit "POST")
  && negb (byteLength (Netlify.rawBodyOf event) >? MAX_BODY_SIZE).

End Serving.

(** [429 Too many requests] *)
Definition tooMany : Result Response :=
  Ok (json 429 (failure "Too many requests. Try again later.") ∅).

(** The sample host with a parser that reads every text as the empty
    array. *)
Definition arrayHost : Host Z :=
  withParser (sampleHost sampleToken crmCreates) (λ _, Some (JArr [])).

(** * Properties *)

(** ** Regular expressions: the derivative decides the language *)

Section RegexFacts.
Implicit Types (r : regex) (s : jsstring) (c : N).

Lemma matches_cat_inv r1 r2 s :
  matches (Cat r1 r2) s ↔ ∃ s1 s2, s = s1 ++ s2 ∧ matches r1 s1 ∧ matches r2 s2.
Proof.
  split.
  - inversion 1; subst. eauto.
  - intros (s1 & s2 & -> & H1 & H2). by constructor.
Qed.

Lemma matches_alt_inv r1 r2 s :
  matches (Alt r1 r2) s ↔ matches r1 s ∨ matches r2 s.
Proof.
  split.
  - inversion 1; subst; auto.
  - intros [H|H]; [by apply matches_alt_l | by apply matches_alt_r].
Qed.

Lemma matches_class_inv p s :
  matches (Class p) s ↔ ∃ c, s = [c] ∧ p c = true.
Proof.
  split.
  - inversion 1; subst. eauto.
  - intros (c & -> & Hc). by constructor.
Qed.

Lemma matches_eps_inv s : matches Eps s ↔ s = [].
Proof. split; [by inversion 1 | intros ->; constructor]. Qed.

Lemma matches_empty_inv s : ¬ matches Empty s.
Proof. inversion 1. Qed.

Lemma nullable_matches r : nullable r = true ↔ matches r [].
Proof.
  split.
  - induction r as [| |p|r1 IH1 r2 IH2|r1 IH1 r2 IH2|r1 IH1]; simpl; intros Hn;
      try discriminate.
    + constructor.
    + apply andb_true_iff in Hn as [H1 H2].
      change (@nil N) with (@nil N ++ []). constructor; auto.
    + apply orb_true_iff in Hn as [H|H];
        [apply matches_alt_l | apply matches_alt_r]; auto.
    + constructor.
  - intros Hm. remember (@nil N) as s eqn:Es.
    induction Hm as [|p c Hc|r1 r2 s1 s2 H1 IH1 H2 IH2|r1 r2 s H IH|r1 r2 s H IH
                    |r|r s1 s2 H1 IH1 H2 IH2]; simpl; auto.
    + discriminate.
    + apply app_eq_nil in Es as [-> ->].
      rewrite IH1, IH2; auto.
    + rewrite IH; auto.
    + rewrite IH; auto. apply orb_true_r.
Qed.

Lemma deriv_sound c r s : matches (deriv c r) s → matches r (c :: s).
Proof.
  revert s.
  induction r as [| |p|r1 IH1 r2 IH2|r1 IH1 r2 IH2|r1 IH1]; simpl; intros s Hm.
  - by apply matches_empty_inv in Hm.
  - by apply matches_empty_inv in Hm.
  - destruct (p c) eqn:Hp.
    + apply matches_eps_inv in Hm as ->. by constructor.
    + by apply matches_empty_inv in Hm.
  - destruct (nullable r1) eqn:Hn.
    + apply matches_alt_inv in Hm as [Hm|Hm].
      * apply matches_cat_inv in Hm as (s1 & s2 & -> & H1 & H2).
        change (c :: s1 ++ s2) with ((c :: s1) ++ s2). constructor; auto.
      * change (c :: s) with ([] ++ c :: s). constructor; auto.
        by apply nullable_matches.
    + apply matches_cat_inv in Hm as (s1 & s2 & -> & H1 & H2).
      change (c :: s1 ++ s2) with ((c :: s1) ++ s2). constructor; auto.
  - apply matches_alt_inv in Hm as [Hm|Hm];
      [apply matches_alt_l | apply matches_alt_r]; auto.
  - apply matches_cat_inv in Hm as (s1 & s2 & -> & H1 & H2).
    change (c :: s1 ++ s2) with ((c :: s1) ++ s2). constructor; auto.
Qed.

Lemma deriv_complete c r s : matches r (c :: s) → matches (deriv c r) s.
Proof.
  intros Hm. remember (c :: s) as cs eqn:Ecs. revert s Ecs.
  induction Hm as [|p d Hd|r1 r2 s1 s2 H1 IH1 H2 IH2|r1 r2 s0 H IH|r1 r2 s0 H IH
                  |r|r s1 s2 H1 IH1 H2 IH2]; intros s Ecs; simpl.
  - discriminate.
  - injection Ecs as -> <-. rewrite Hd. constructor.
  - destruct s1 as [|d s1'].
    + simpl in Ecs. subst s2.
      apply nullable_matches in H1. rewrite H1.
      apply matches_alt_r. by apply IH2.
    + simpl in Ecs. injection Ecs as -> <-.
      assert (matches (Cat (deriv c r1) r2) (s1' ++ s2)) as Hc
        by (constructor; auto).
      destruct (nullable r1); [by apply matches_alt_l | exact Hc].
  - apply matches_alt_l. by apply IH.
  - apply matches_alt_r. by apply IH.
  - discriminate.
  - destruct s1 as [|d s1'].
    + simpl in Ecs. by apply IH2.
    + simpl in Ecs. injection Ecs as -> <-. constructor; auto.
Qed.

(** [test] answers membership in the language of the pattern. *)
Lemma test_matches r s : test r s = true ↔ matches r s.
Proof.
  revert r. induction s as [|c s IH]; intros r; simpl.
  - apply nullable_matches.
  - rewrite IH. split; [apply deriv_sound | apply deriv_complete].
Qed.

Lemma matches_star_class p s :
  matches (Star (Class p)) s ↔ Forall (λ c, p c = true) s.
Proof.
  split.
  - intros Hm. remember (Star (Class p)) as r eqn:Er.
    induction Hm as [| | | | | |r0 s1 s2 H1 _ H2 IH2]; try discriminate.
    + constructor.
    + injection Er as ->. apply matches_class_inv in H1 as (c & -> & Hc).
      constructor; auto.
  - induction 1 as [|c s Hc _ IH]; [constructor|].
    change (c :: s) with ([c] ++ s). constructor; [by constructor | exact IH].
Qed.

Lemma matches_plus_class p s :
  matches (Plus (Class p)) s ↔ s ≠ [] ∧ Forall (λ c, p c = true) s.
Proof.
  unfold Plus. rewrite matches_cat_inv. split.
  - intros (s1 & s2 & -> & H1 & H2).
    apply matches_class_inv in H1 as (c & -> & Hc).
    apply matches_star_class in H2. split; [discriminate | by constructor].
  - intros [Hne Hall]. destruct s as [|c s]; [done|].
    inversion Hall as [|? ? Hc Hs]; subst.
    exists [c], s. split; [done|]. split; [by constructor | by apply matches_star_class].
Qed.

Lemma matches_atleast_class n p s :
  matches (AtLeast n (Class p)) s ↔ (n ≤ length s)%nat ∧ Forall (λ c, p c = true) s.
Proof.
  revert s. induction n as [|n IH]; intros s; simpl.
  - rewrite matches_star_class. split; [intros; split; [lia | done] | by intros [_ ?]].
  - rewrite matches_cat_inv. split.
    + intros (s1 & s2 & -> & H1 & H2).
      apply matches_class_inv in H1 as (c & -> & Hc).
      apply IH in H2 as [Hlen Hall]. simpl. split; [lia | by constructor].
    + intros [Hlen Hall]. destruct s as [|c s]; [simpl in Hlen; lia|].
      inversion Hall as [|? ? Hc Hs]; subst. simpl in Hlen.
      exists [c], s. split; [done|]. split; [by constructor|].
      apply IH. split; [lia | done].
Qed.

(** The pattern accepts exactly the strings of the shape the specification
    describes. *)
Lemma emailRegex_shape s : test emailRegex s = true ↔ spec_email_shape s.
Proof.
  rewrite test_matches. unfold emailRegex, spec_email_shape. split.
  - intros Hm.
    apply matches_cat_inv in Hm as (l & s1 & -> & Hl & Hm).
    apply matches_cat_inv in Hm as (a & s2 & -> & Ha & Hm).
    apply matches_cat_inv in Hm as (d & s3 & -> & Hd & Hm).
    apply matches_cat_inv in Hm as (o & x & -> & Ho & Hx).
    apply matches_plus_class in Hl as [Hl1 Hl2].
    apply matches_plus_class in Hd as [Hd1 Hd2].
    apply matches_atleast_class in Hx as [Hx1 Hx2].
    apply matches_class_inv in Ha as (c & -> & Hc). apply N.eqb_eq in Hc as ->.
    apply matches_class_inv in Ho as (c & -> & Hc). apply N.eqb_eq in Hc as ->.
    exists l, d, x. done.
  - intros (l & d & x & -> & Hl1 & Hd1 & Hx1 & Hl2 & Hd2 & Hx2).
    constructor; [by apply matches_plus_class|].
    constructor; [by constructor|].
    constructor; [by apply matches_plus_class|].
    constructor; [by constructor|].
    by apply matches_atleast_class.
Qed.

End RegexFacts.

(** ** The rate limiter: answers, buckets, invariant *)

Section RateLimiter.
Implicit Types (m : Buckets) (ip : jsstring) (now t : Z) (l : list Z).

Lemma isRateLimited_store now ip m :
  (isRateLimited now ip m).2
  = <[ip := filter (λ t, now - t < RATE_WINDOW_MS) (bucket ip m) ++ [now]]> m.
Proof. reflexivity. Qed.

Lemma isRateLimited_bucket now ip m :
  bucket ip (isRateLimited now ip m).2
  = filter (λ t, now - t < RATE_WINDOW_MS) (bucket ip m) ++ [now].
Proof. unfold bucket at 1. rewrite isRateLimited_store, lookup_insert_eq. reflexivity. Qed.

Lemma isRateLimited_answer now ip m :
  (isRateLimited now ip m).1 = true
  ↔ (5 ≤ length (filter (λ t, (now - t < RATE_WINDOW_MS)%Z) (bucket ip m)))%nat.
Proof.
  unfold isRateLimited, bucket, RATE_MAX_REQUESTS; simpl.
  rewrite bool_decide_eq_true, length_app; simpl. lia.
Qed.

Lemma isRateLimited_answer_false now ip m :
  (isRateLimited now ip m).1 = false
  ↔ (length (filter (λ t, (now - t < RATE_WINDOW_MS)%Z) (bucket ip m)) ≤ 4)%nat.
Proof.
  unfold isRateLimited, bucket, RATE_MAX_REQUESTS; simpl.
  rewrite bool_decide_eq_false, length_app; simpl. lia.
Qed.

Lemma isRateLimited_other now ip ip' m :
  ip' ≠ ip → (isRateLimited now ip m).2 !! ip' = m !! ip'.
Proof. intros Hne. rewrite isRateLimited_store. by apply lookup_insert_ne. Qed.

Lemma filter_window_strict now l :
  filter (λ t, now - t < RATE_WINDOW_MS) l = filter (λ t, now - RATE_WINDOW_MS < t) l.
Proof. apply list_filter_iff. intros t. lia. Qed.

Lemma StronglySorted_filter (P : Z → Prop) `{∀ x, Decision (P x)} l :
  StronglySorted Z.le l → StronglySorted Z.le (filter P l).
Proof.
  induction 1 as [|x l Hl IH Hx]; [constructor|].
  rewrite filter_cons. destruct (decide (P x)); [|assumption].
  constructor; [assumption|].
  rewrite Forall_forall in Hx |- *. intros y Hy.
  apply Hx. apply list_elem_of_filter in Hy. tauto.
Qed.

(** Under a clock that never goes back every bucket is sorted and holds no
    timestamp later than the last reading. *)
Lemma reachable_sorted t m :
  reachable t m →
  ∀ ip l, m !! ip = Some l → StronglySorted Z.le l ∧ Forall (λ x, x ≤ t) l.
Proof.
  induction 1 as [t|t now ip m Hr IH Hle]; intros ip' l Hl.
  - by rewrite lookup_empty in Hl.
  - rewrite isRateLimited_store in Hl.
    destruct (decide (ip = ip')) as [->|Hne].
    + rewrite lookup_insert_eq in Hl. injection Hl as <-.
      assert (StronglySorted Z.le (bucket ip' m) ∧ Forall (λ x, x ≤ t) (bucket ip' m))
        as [Hs Hb].
      { unfold bucket. destruct (m !! ip') as [l0|] eqn:E; simpl.
        - by apply (IH ip').
        - split; constructor. }
      split.
      * apply StronglySorted_app. split; [|split].
        -- intros x1 x2 H1 H2. apply list_elem_of_singleton in H2 as ->.
           apply list_elem_of_filter in H1 as [_ H1].
           rewrite Forall_forall in Hb. specialize (Hb _ H1). lia.
        -- by apply StronglySorted_filter.
        -- repeat constructor.
      * apply Forall_app. split.
        -- rewrite Forall_forall in Hb |- *. intros x Hx.
           apply list_elem_of_filter in Hx as [_ Hx]. specialize (Hb _ Hx). lia.
        -- repeat constructor. lia.
    + rewrite lookup_insert_ne in Hl by done.
      destruct (IH _ _ Hl) as [Hs Hb]. split; [done|].
      eapply Forall_impl; [exact Hb|]. simpl. intros; lia.
Qed.

(** When the five recorded checks are the only ones, a check made once the
    oldest of them is 15 minutes old or more is accepted. *)
Lemma isRateLimited_after_oldest_expired now ip m t1 rest :
  bucket ip m = t1 :: rest → length rest = 4%nat → RATE_WINDOW_MS ≤ now - t1 →
  (isRateLimited now ip m).1 = false.
Proof.
  intros Hb Hlen Hold. apply isRateLimited_answer_false. rewrite Hb.
  rewrite filter_cons_False by lia.
  pose proof (length_filter (λ t, now - t < RATE_WINDOW_MS) rest). lia.
Qed.

End RateLimiter.

(** C1 (as stated, refuted).  Five checks at 0..4 ms are accepted and the
    sixth, at 5 ms, is rejected.  At 900000 ms the oldest timestamp (0) is
    outside the window, yet the check made then is rejected as well: the
    rejected sixth check was recorded and five timestamps (1..5) are still
    inside the window. *)
Lemma C1_later_check_counterexample :
  (run_checks [(0, sampleIp); (1, sampleIp); (2, sampleIp); (3, sampleIp); (4, sampleIp);
               (5, sampleIp); (900000, sampleIp)] ∅).1
  = [false; false; false; false; false; true; true]
  ∧ ¬ (900000 - 0 < RATE_WINDOW_MS).
Proof. split; [vm_compute; reflexivity | unfold RATE_WINDOW_MS; lia]. Qed.

(** C1 (amended).  For every client: if five recorded checks are less than
    15 minutes old, the next check is rejected, and it is recorded all the
    same; a later check is accepted if and only if at most four of the
    recorded checks, the rejected one included, are then less than 15
    minutes old, and the window then holds exactly those and the new
    check. *)
Theorem C1_sixth_rejected_then_window_shifts (m : Buckets) (ip : jsstring) (T6 T7 : Z) :
  (5 ≤ length (filter (λ t, (T6 - t < RATE_WINDOW_MS)%Z) (bucket ip m)))%nat →
  let m6 := (isRateLimited T6 ip m).2 in
  (isRateLimited T6 ip m).1 = true
  ∧ bucket ip m6 = filter (λ t, T6 - t < RATE_WINDOW_MS) (bucket ip m) ++ [T6]
  ∧ ((isRateLimited T7 ip m6).1 = false
     ↔ (length (filter (λ t, (T7 - t < RATE_WINDOW_MS)%Z) (bucket ip m6)) ≤ 4)%nat)
  ∧ bucket ip (isRateLimited T7 ip m6).2
    = filter (λ t, T7 - t < RATE_WINDOW_MS) (bucket ip m6) ++ [T7].
Proof.
  intros H5 m6. split; [by apply isRateLimited_answer|].
  split; [apply isRateLimited_bucket|].
  split; [apply isRateLimited_answer_false | apply isRateLimited_bucket].
Qed.

Lemma C1_sixth_rejected_then_window_shifts_witness :
  (isRateLimited 5 sampleIp fiveChecks).1 = true
  ∧ bucket sampleIp (isRateLimited 5 sampleIp fiveChecks).2
    = filter (λ t, 5 - t < RATE_WINDOW_MS)
        (bucket sampleIp fiveChecks) ++ [5]
  ∧ ((isRateLimited 900002 sampleIp
        (isRateLimited 5 sampleIp fiveChecks).2).1 = false
     ↔ (length (filter (λ t, (900002 - t < RATE_WINDOW_MS)%Z)
                  (bucket sampleIp
                     (isRateLimited 5 sampleIp fiveChecks).2))
        ≤ 4)%nat)
  ∧ bucket sampleIp
      (isRateLimited 900002 sampleIp
         (isRateLimited 5 sampleIp fiveChecks).2).2
    = filter (λ t, 900002 - t < RATE_WINDOW_MS)
        (bucket sampleIp (isRateLimited 5 sampleIp fiveChecks).2)
      ++ [900002].
Proof.
  apply (C1_sixth_rejected_then_window_shifts fiveChecks sampleIp 5 900002).
  vm_compute. lia.
Defined.

(** C7 (as stated, refuted).  The claim keeps a timestamp that is exactly
    [windowDuration] old.  With the bucket [[0]] and a check at
    [T = 900000] the closed interval of the claim would store
    [[0; 900000]], while [isRateLimited] stores [[900000]]. *)
Lemma C7_closed_window_counterexample :
  spec_closed_window 900000 (bucket sampleIp oneCheck) ++ [900000]
  = [0; 900000]
  ∧ (isRateLimited 900000 sampleIp oneCheck).2 !! sampleIp = Some [900000]
  ∧ (isRateLimited 900000 sampleIp oneCheck).2 !! sampleIp
    ≠ Some (spec_closed_window 900000 (bucket sampleIp oneCheck) ++ [900000]).
Proof. split; [|split]; vm_compute; (reflexivity || discriminate). Qed.

(** C7 (amended).  On every check at time [T] the stored sequence is
    filtered to exactly the timestamps [t] with [T - t < windowDuration],
    that is, strictly newer than [T - windowDuration]; a timestamp exactly
    [windowDuration] old is dropped and no upper bound is tested.  [T] is
    appended, the result is stored back under the client's key, and the
    check reports limited if and only if the resulting count exceeds 5. *)
Theorem C7_strict_window (now : Z) (ip : jsstring) (m : Buckets) :
  let kept := filter (λ t, now - RATE_WINDOW_MS < t) (bucket ip m) in
  (isRateLimited now ip m).2 = <[ip := kept ++ [now]]> m
  ∧ ((isRateLimited now ip m).1 = true ↔ Z.of_nat (length (kept ++ [now])) > 5)
  ∧ (∀ t, t ∈ kept ↔ t ∈ bucket ip m ∧ now - RATE_WINDOW_MS < t)
  ∧ now - RATE_WINDOW_MS ∉ kept.
Proof.
  cbv zeta. rewrite <- filter_window_strict. split; [apply isRateLimited_store|].
  split.
  - rewrite isRateLimited_answer, length_app. simpl. lia.
  - split.
    + intros t. rewrite list_elem_of_filter. split; intros [? ?]; split; (assumption || lia).
    + rewrite list_elem_of_filter. lia.
Qed.

(** C10.  When the clock never goes back, after a check for a client at
    time [T] that client's stored sequence is sorted, ends with [T] and
    holds only timestamps [t] with [T - windowDuration < t <= T]; the
    buckets of the other clients are as they were. *)
Theorem C10_bucket_invariant (t now : Z) (ip : jsstring) (m : Buckets) :
  reachable t m → t ≤ now →
  let m' := (isRateLimited now ip m).2 in
  ∃ l, m' !! ip = Some l
       ∧ Sorted Z.le l
       ∧ last l = Some now
       ∧ Forall (λ x, now - RATE_WINDOW_MS < x ≤ now) l
       ∧ ∀ ip', ip' ≠ ip → m' !! ip' = m !! ip'.
Proof.
  intros Hr Hle m'.
  assert (reachable now m') as Hr' by (by eapply reachable_check).
  exists (filter (λ x, now - x < RATE_WINDOW_MS) (bucket ip m) ++ [now]).
  assert (m' !! ip
          = Some (filter (λ x, now - x < RATE_WINDOW_MS) (bucket ip m) ++ [now])) as E.
  { subst m'. rewrite isRateLimited_store. apply lookup_insert_eq. }
  destruct (reachable_sorted _ _ Hr' _ _ E) as [Hs Hb].
  split; [exact E|]. split; [by apply StronglySorted_Sorted|].
  split; [apply last_snoc|]. split.
  - apply Forall_app in Hb as [Hb _]. apply Forall_app. split.
    + rewrite Forall_forall in Hb |- *. intros x Hx. specialize (Hb _ Hx).
      apply list_elem_of_filter in Hx as [Hx _]. lia.
    + repeat constructor; unfold RATE_WINDOW_MS; lia.
  - intros ip' Hne. subst m'. by apply isRateLimited_other.
Qed.

Lemma C10_bucket_invariant_witness :
  ∃ l, (isRateLimited 7 sampleIp (isRateLimited 3 sampleIp ∅).2).2 !! sampleIp = Some l
       ∧ Sorted Z.le l
       ∧ last l = Some 7
       ∧ Forall (λ x, 7 - RATE_WINDOW_MS < x ≤ 7) l
       ∧ ∀ ip', ip' ≠ sampleIp →
           (isRateLimited 7 sampleIp (isRateLimited 3 sampleIp ∅).2).2 !! ip'
           = (isRateLimited 3 sampleIp ∅).2 !! ip'.
Proof.
  apply (C10_bucket_invariant 3 7 sampleIp (isRateLimited 3 sampleIp ∅).2).
  - apply (reachable_check 0 3); [apply reachable_start | lia].
  - lia.
Defined.

(** ** Running the handlers *)

Section Running.
Context {W : Type} {host : Host W}.
Implicit Types (st : State W).

Lemma sameModule_refl st : sameModule st st.
Proof. by repeat split. Qed.

Lemma sameModule_trans st1 st2 st3 :
  sameModule st1 st2 → sameModule st2 st3 → sameModule st1 st3.
Proof. intros (?&?&?) (?&?&?). repeat split; congruence. Qed.

Lemma bind_run {A B} (c : M W A) (k : A → M W B) st a st' :
  c st = (Ok a, st') → bind c k st = k a st'.
Proof. intros E. unfold bind. by rewrite E. Qed.

Lemma bind_throw {A B} (c : M W A) (k : A → M W B) st e st' :
  c st = (Throw e, st') → bind c k st = (Throw e, st').
Proof. intros E. unfold bind. by rewrite E. Qed.

Lemma clock_run st :
  clock st = (Ok (nextClock st),
              mkState (requestBuckets st) (Date_now (world st)).2 (calls st) (console st)).
Proof. unfold clock, nextClock. by destruct (Date_now (world st)). Qed.

Lemma isoNow_run st :
  ∃ st', isoNow st = (Ok (toISOString (nextClock st)), st') ∧ sameModule st st'.
Proof.
  eexists. unfold isoNow. erewrite bind_run by apply clock_run.
  split; [reflexivity | by repeat split].
Qed.

Lemma rateLimit_run ip st :
  rateLimit ip st
  = (Ok (isRateLimited (nextClock st) ip (requestBuckets st)).1,
     mkState (isRateLimited (nextClock st) ip (requestBuckets st)).2
       (Date_now (world st)).2 (calls st) (console st)).
Proof.
  unfold rateLimit. erewrite bind_run by apply clock_run. simpl.
  by destruct (isRateLimited (nextClock st) ip (requestBuckets st)).
Qed.

(** Reading a field of a parsed body that is not [null] gives the trimmed
    string when the field is a string and the fallback otherwise. *)
Lemma trimmedString_run parsed key (fallback : M W jsstring) st :
  parsed ≠ JNull →
  trimmedString parsed key fallback st
  = match stringField parsed key with
    | Some s => (Ok s, st)
    | None => fallback st
    end.
Proof.
  intros Hp. unfold trimmedString, stringField, field, bind, lift.
  destruct parsed as [| | | | |fields]; try done.
  simpl. destruct (own (lit key) fields) as [[]|]; done.
Qed.

Lemma trimmedString_null key (fallback : M W jsstring) st :
  trimmedString JNull key fallback st = (Throw TypeError, st).
Proof. reflexivity. Qed.

(** With a fallback that leaves the module alone, so does the read. *)
Lemma trimmedString_ok parsed key (fallback : M W jsstring) d st :
  parsed ≠ JNull →
  (∃ st', fallback st = (Ok d, st') ∧ sameModule st st') →
  ∃ st', trimmedString parsed key fallback st
         = (Ok (default d (stringField parsed key)), st')
         ∧ sameModule st st'.
Proof.
  intros Hp (st' & Hf & Hs). rewrite trimmedString_run by done.
  destruct (stringField parsed key); simpl; eauto using sameModule_refl.
Qed.

Lemma ret_ok {A} (a : A) st : ∃ st', ret a st = (Ok a, st') ∧ sameModule st st'.
Proof. exists st. split; [done | apply sameModule_refl]. Qed.

End Running.

(** ** Stepping through a handler *)

Lemma POST_is_not_OPTIONS : bool_decide (lit "POST" = lit "OPTIONS") = false.
Proof. reflexivity. Qed.

Lemma POST_is_POST : bool_decide (lit "POST" = lit "POST") = true.
Proof. reflexivity. Qed.

Lemma gtb_false_le (a b : Z) : a ≤ b → (a >? b) = false.
Proof. intros. rewrite Z.gtb_ltb. by apply Z.ltb_ge. Qed.


Lemma nonempty_true (s : jsstring) : s ≠ [] → nonempty s = true.
Proof. by destruct s. Qed.

Lemma stringField_string parsed key s :
  field parsed key = Some (JStr s) → stringField parsed key = Some (trim s).
Proof. intros E. unfold stringField. by rewrite E. Qed.

Lemma validLead_not_null parsed : validLead parsed → parsed ≠ JNull.
Proof. intros (_ & Hn & _) ->. simpl in Hn. lia. Qed.

(** One field read: the value is the trimmed string or the default, and the
    module state is as before. *)
Ltac step_field Hp :=
  lazymatch goal with
  | S0 : sameModule ?s0 ?st |- context [bind (trimmedString ?p ?key ?fb) _ ?st] =>
      let st' := fresh "st" in
      let E := fresh "E" in
      let S := fresh "S" in
      let H := fresh "H" in
      pose proof (λ d Hf, trimmedString_ok p key fb d st Hp Hf) as H;
      first [ specialize (H _ (ret_ok _ _)) | specialize (H _ (isoNow_run _)) ];
      destruct H as (st' & E & S);
      rewrite (bind_run _ _ _ _ _ E); clear E;
      pose proof (sameModule_trans _ _ _ S0 S); clear S0 S
  end.

(** [isoNow] as a step. *)
Ltac step_iso :=
  lazymatch goal with
  | S0 : sameModule ?s0 ?st |- context [bind isoNow _ ?st] =>
      let st' := fresh "st" in
      let E := fresh "E" in
      let S := fresh "S" in
      destruct (isoNow_run st) as (st' & E & S);
      rewrite (bind_run _ _ _ _ _ E); clear E;
      pose proof (sameModule_trans _ _ _ S0 S); clear S0 S
  end.

(** What the field reads left untouched. *)
Ltac same :=
  match goal with
  | S : sameModule _ _ |- _ =>
      let Sb := fresh "Sb" in
      let Sc := fresh "Sc" in
      let Sl := fresh "Sl" in
      destruct S as (Sb & Sc & Sl); simpl in Sb, Sc, Sl
  end.

Ltac if_false := change (negb true) with false; cbv beta iota zeta.

(** Past the method, the size, the rate limiter and the parser. *)
Ltac netlify_intake Hacc :=
  let Hpost := fresh "Hpost" in
  let Hsize := fresh "Hsize" in
  let Hlim := fresh "Hlim" in
  let Hparse := fresh "Hparse" in
  destruct Hacc as (Hpost & Hsize & Hlim & Hparse);
  rewrite Hpost, POST_is_not_OPTIONS, POST_is_POST; if_false;
  rewrite (gtb_false_le _ _ Hsize);
  rewrite (bind_run _ _ _ _ _ (rateLimit_run _ _)), Hlim, Hparse;
  cbv beta iota;
  match goal with
  | |- context [mkState ?b ?w ?c ?l] =>
      let st1 := fresh "st" in
      set (st1 := mkState b w c l);
      pose proof (sameModule_refl st1)
  end.

(** ** Forwarding *)

Section ForwardingFacts.
Context {W : Type} {host : Host W}.
Implicit Types (st : State W) (lead : Lead).

Lemma log_run entry st :
  log entry st
  = (Ok tt, mkState (requestBuckets st) (world st) (calls st) (console st ++ [entry])).
Proof. reflexivity. Qed.

Lemma try_catch_ok {A} (c : M W A) h st a st' :
  c st = (Ok a, st') → try_catch c h st = (Ok a, st').
Proof. intros E. unfold try_catch. by rewrite E. Qed.

Lemma try_catch_throw {A} (c : M W A) h st e st' :
  c st = (Throw e, st') → try_catch c h st = h e st'.
Proof. intros E. unfold try_catch. by rewrite E. Qed.

Lemma do_fetch_run request st response w' :
  fetch request (world st) = (Responded response, w') →
  do_fetch request st
  = (Ok response, mkState (requestBuckets st) w' (calls st ++ [request]) (console st)).
Proof. intros E. unfold do_fetch. by rewrite E. Qed.

Lemma callHubSpot_run path method properties st response w' :
  HUBSPOT_ACCESS_TOKEN ≠ [] →
  fetch {| url := HUBSPOT_API_BASE ++ path; fetch_method := method;
           authorization := lit "Bearer " ++ HUBSPOT_ACCESS_TOKEN;
           properties := properties |} (world st) = (Responded response, w') →
  callHubSpot path method properties st
  = (Ok (Called response),
     mkState (requestBuckets st) w'
       (calls st ++ [{| url := HUBSPOT_API_BASE ++ path; fetch_method := method;
                        authorization := lit "Bearer " ++ HUBSPOT_ACCESS_TOKEN;
                        properties := properties |}])
       (console st)).
Proof.
  intros Ht E. unfold callHubSpot. rewrite (nonempty_true _ Ht). if_false.
  by rewrite (bind_run _ _ _ _ _ (do_fetch_run _ _ _ _ E)).
Qed.

(** Without an access token nothing is sent. *)
Lemma syncLeadToHubSpot_skipped lead st :
  HUBSPOT_ACCESS_TOKEN = [] → syncLeadToHubSpot lead st = (Ok Skipped, st).
Proof. intros Ht. unfold syncLeadToHubSpot. by rewrite Ht. Qed.

(** An address that cannot be URL-encoded stops the forwarding before any
    call. *)
Lemma syncLeadToHubSpot_URIError lead leadName st :
  HUBSPOT_ACCESS_TOKEN ≠ [] →
  name lead = Some leadName →
  encodeURIComponent (email lead) = None →
  syncLeadToHubSpot lead st = (Throw URIError, st).
Proof.
  intros Ht Hn He. unfold syncLeadToHubSpot. rewrite (nonempty_true _ Ht). if_false.
  rewrite Hn. destruct (splitName _). by rewrite He.
Qed.

(** Update answered 404, create answered 2xx: two calls, the lead is
    created. *)
Lemma syncLeadToHubSpot_created lead leadName encoded st :
  HUBSPOT_ACCESS_TOKEN ≠ [] →
  name lead = Some leadName →
  encodeURIComponent (email lead) = Some encoded →
  answers (λ request, fetch_method request = lit "PATCH") (λ response, status response = 404) →
  answers (λ request, fetch_method request = lit "POST")
          (λ response, 200 ≤ status response ≤ 299) →
  ∃ st' patch post,
    syncLeadToHubSpot lead st = (Ok (Synced "created"), st')
    ∧ calls st' = calls st ++ [patch; post]
    ∧ requestBuckets st' = requestBuckets st
    ∧ console st' = console st
    ∧ fetch_method patch = lit "PATCH"
    ∧ url patch = HUBSPOT_API_BASE ++ lit "/crm/v3/objects/contacts/" ++ encoded
                    ++ lit "?idProperty=email"
    ∧ fetch_method post = lit "POST"
    ∧ url post = HUBSPOT_API_BASE ++ lit "/crm/v3/objects/contacts"
    ∧ p_email (properties patch) = email lead
    ∧ properties post = properties patch.
Proof.
  intros Ht Hn He Hpatch Hpost. unfold syncLeadToHubSpot.
  rewrite (nonempty_true _ Ht). if_false. rewrite Hn.
  destruct (splitName _) as [firstName lastName]. rewrite He.
  set (props := mkProperties _ _ _).
  set (patch := mkFetchRequest
                  (HUBSPOT_API_BASE ++ lit "/crm/v3/objects/contacts/" ++ encoded
                     ++ lit "?idProperty=email")
                  (lit "PATCH") (lit "Bearer " ++ HUBSPOT_ACCESS_TOKEN) props).
  set (post := mkFetchRequest (HUBSPOT_API_BASE ++ lit "/crm/v3/objects/contacts")
                 (lit "POST") (lit "Bearer " ++ HUBSPOT_ACCESS_TOKEN) props).
  destruct (Hpatch patch (world st) eq_refl) as (r1 & w1 & E1 & Hs1).
  rewrite (bind_run _ _ _ _ _ (callHubSpot_run _ _ _ _ _ _ Ht E1)).
  cbv beta iota.
  assert (ok r1 = false) as -> by (unfold ok; rewrite Hs1; reflexivity).
  rewrite Hs1. change (negb (404 =? 404)) with false. cbv iota.
  set (st1 := mkState _ _ _ _).
  destruct (Hpost post (world st1) eq_refl) as (r2 & w2 & E2 & Hs2).
  rewrite (bind_run _ _ _ _ _ (callHubSpot_run _ _ _ _ _ _ Ht E2)).
  cbv beta iota.
  assert (ok r2 = true) as ->.
  { unfold ok. apply andb_true_iff. split; apply Z.leb_le; lia. }
  eexists _, patch, post. split; [reflexivity|].
  simpl. rewrite <- app_assoc. repeat split.
Qed.

(** Update answered with a failure other than 404: one call, the error
    carries the status and what HubSpot said. *)
Lemma syncLeadToHubSpot_update_failed lead leadName encoded st :
  HUBSPOT_ACCESS_TOKEN ≠ [] →
  name lead = Some leadName →
  encodeURIComponent (email lead) = Some encoded →
  answers (λ request, fetch_method request = lit "PATCH")
          (λ response, ¬ (200 ≤ status response ≤ 299) ∧ status response ≠ 404) →
  ∃ st' patch response,
    syncLeadToHubSpot lead st
    = (Throw (HubSpotFailed "update" (status response) (getHubSpotErrorMessage response)), st')
    ∧ ¬ (200 ≤ status response ≤ 299) ∧ status response ≠ 404
    ∧ calls st' = calls st ++ [patch]
    ∧ requestBuckets st' = requestBuckets st
    ∧ console st' = console st
    ∧ fetch_method patch = lit "PATCH"
    ∧ url patch = HUBSPOT_API_BASE ++ lit "/crm/v3/objects/contacts/" ++ encoded
                    ++ lit "?idProperty=email".
Proof.
  intros Ht Hn He Hpatch. unfold syncLeadToHubSpot.
  rewrite (nonempty_true _ Ht). if_false. rewrite Hn.
  destruct (splitName _) as [firstName lastName]. rewrite He.
  set (props := mkProperties _ _ _).
  set (patch := mkFetchRequest
                  (HUBSPOT_API_BASE ++ lit "/crm/v3/objects/contacts/" ++ encoded
                     ++ lit "?idProperty=email")
                  (lit "PATCH") (lit "Bearer " ++ HUBSPOT_ACCESS_TOKEN) props).
  destruct (Hpatch patch (world st) eq_refl) as (r1 & w1 & E1 & Hs1 & Hs2).
  rewrite (bind_run _ _ _ _ _ (callHubSpot_run _ _ _ _ _ _ Ht E1)).
  cbv beta iota.
  assert (ok r1 = false) as ->.
  { unfold ok. apply andb_false_iff.
    destruct (Z.leb_spec 200 (status r1)); [|by left].
    destruct (Z.leb_spec (status r1) 299); [|by right]. lia. }
  assert (negb (status r1 =? 404) = true) as ->.
  { apply negb_true_iff. by apply Z.eqb_neq. }
  cbv iota.
  eexists _, patch, r1. split; [reflexivity|]. repeat split; (assumption || lia).
Qed.

End ForwardingFacts.

(** ** The serverless function with forwarding *)

Section NetlifyFacts.
Context {W : Type} {host : Host W}.
Implicit Types (st : State W) (event : Netlify.Event) (parsed : JsValue).

(** After the fields are read: the honeypot is empty and the name and the
    address pass. *)
Ltac pass_validation Hv :=
  let Hc := fresh "Hc" in
  let Hn := fresh "Hn" in
  let He := fresh "He" in
  destruct Hv as (Hc & Hn & He);
  rewrite Hc; change (nonempty []) with false; cbv iota;
  rewrite (proj2 (Z.ltb_ge _ 2)) by lia;
  rewrite He; if_false.

Lemma netlify_honeypot event st parsed company :
  Netlify.accepted event st parsed →
  field parsed "company" = Some (JStr company) →
  trim company ≠ [] →
  ∃ st', Netlify.handler event st = (Ok (json 200 okPayload ∅), st')
         ∧ calls st' = calls st
         ∧ console st' = console st.
Proof.
  intros Hacc Hc Hne.
  assert (parsed ≠ JNull) as Hp by (intros ->; discriminate).
  unfold Netlify.handler. netlify_intake Hacc.
  do 7 step_field Hp.
  rewrite (stringField_string _ _ _ Hc). cbn [default from_option id].
  rewrite (nonempty_true _ Hne).
  eexists. split; [reflexivity|]. by same.
Qed.

Lemma netlify_short_name event st parsed :
  Netlify.accepted event st parsed →
  parsed ≠ JNull →
  default [] (stringField parsed "company") = [] →
  (length (default [] (stringField parsed "name")) < 2)%nat →
  ∃ st', Netlify.handler event st
         = (Ok (json 400 (failure "Please send your name.") ∅), st')
         ∧ calls st' = calls st
         ∧ console st' = console st.
Proof.
  intros Hacc Hp Hc Hn.
  unfold Netlify.handler. netlify_intake Hacc.
  do 7 step_field Hp.
  rewrite Hc. change (nonempty []) with false. cbv iota.
  rewrite (proj2 (Z.ltb_lt _ 2)) by lia.
  eexists. split; [reflexivity|]. by same.
Qed.



Lemma netlify_limited event st :
  Netlify.httpMethod event = lit "POST" →
  byteLength (Netlify.rawBodyOf event) ≤ MAX_BODY_SIZE →
  (isRateLimited (nextClock st) (Netlify.getClientIp event) (requestBuckets st)).1 = true →
  ∃ st', Netlify.handler event st
         = (Ok (json 429 (failure "Too many requests. Try again later.") ∅), st')
         ∧ requestBuckets st'
           = (isRateLimited (nextClock st) (Netlify.getClientIp event)
                (requestBuckets st)).2.
Proof.
  intros Hpost Hsize Hlim. unfold Netlify.handler.
  rewrite Hpost, POST_is_not_OPTIONS, POST_is_POST. if_false.
  rewrite (gtb_false_le _ _ Hsize).
  rewrite (bind_run _ _ _ _ _ (rateLimit_run _ _)), Hlim.
  eexists. split; reflexivity.
Qed.

(** C2 (amended).  Given a valid lead whose address can be URL-encoded, a
    configured access token, and a CRM that answers the update (PATCH keyed
    by e-mail) with 404 and the create (POST) with a 2xx status, the handler
    returns 200 with the coupon BEST10 and performs exactly two CRM calls, a
    PATCH followed by a POST. *)
Theorem C2_not_found_then_created event st parsed encoded :
  Netlify.accepted event st parsed →
  validLead parsed →
  HUBSPOT_ACCESS_TOKEN ≠ [] →
  encodeURIComponent (toLowerCase (default [] (stringField parsed "email"))) = Some encoded →
  answers (λ request, fetch_method request = lit "PATCH") (λ response, status response = 404) →
  answers (λ request, fetch_method request = lit "POST")
          (λ response, 200 ≤ status response ≤ 299) →
  ∃ st' patch post,
    Netlify.handler event st = (Ok (json 200 couponPayload ∅), st')
    ∧ calls st' = calls st ++ [patch; post]
    ∧ fetch_method patch = lit "PATCH"
    ∧ url patch = HUBSPOT_API_BASE ++ lit "/crm/v3/objects/contacts/" ++ encoded
                    ++ lit "?idProperty=email"
    ∧ fetch_method post = lit "POST"
    ∧ url post = HUBSPOT_API_BASE ++ lit "/crm/v3/objects/contacts".
Proof.
  intros Hacc Hv Ht Henc Hpatch Hpost.
  pose proof (validLead_not_null _ Hv) as Hp.
  unfold Netlify.handler. netlify_intake Hacc.
  do 7 step_field Hp. pass_validation Hv. step_iso.
  rewrite (bind_run _ _ _ _ _ (log_run _ _)).
  set (lead := mkLead _ _ _ _ _ _ _ _). set (st9 := mkState _ _ _ _).
  destruct (syncLeadToHubSpot_created lead _ encoded st9 Ht eq_refl Henc Hpatch Hpost)
    as (st10 & patch & post & Es & Hcalls & _ & _ & Hm1 & Hu1 & Hm2 & Hu2 & _).
  erewrite bind_run.
  2:{ apply try_catch_ok. rewrite (bind_run _ _ _ _ _ Es).
      rewrite (bind_run _ _ _ _ _ (log_run _ _)). reflexivity. }
  cbv beta iota.
  eexists _, patch, post. split; [reflexivity|].
  simpl. rewrite Hcalls. subst st9. simpl. same. by rewrite Sc.
Qed.

(** C3 (amended).  Given a valid lead whose address can be URL-encoded, a
    configured access token, and a CRM whose answer to the update (PATCH)
    has a status that is neither 2xx nor 404, the handler returns 502 with
    the fixed retry-later message and performs exactly one CRM call; the
    upstream status and message go to the console and the body of the
    response is the same whatever they are. *)
Theorem C3_update_failure_is_502 event st parsed encoded :
  Netlify.accepted event st parsed →
  validLead parsed →
  HUBSPOT_ACCESS_TOKEN ≠ [] →
  encodeURIComponent (toLowerCase (default [] (stringField parsed "email"))) = Some encoded →
  answers (λ request, fetch_method request = lit "PATCH")
          (λ response, ¬ (200 ≤ status response ≤ 299) ∧ status response ≠ 404) →
  ∃ st' patch response lead,
    Netlify.handler event st
    = (Ok (json 502 (failure "Unable to save your lead right now. Please try again.") ∅), st')
    ∧ calls st' = calls st ++ [patch]
    ∧ fetch_method patch = lit "PATCH"
    ∧ url patch = HUBSPOT_API_BASE ++ lit "/crm/v3/objects/contacts/" ++ encoded
                    ++ lit "?idProperty=email"
    ∧ ¬ (200 ≤ status response ≤ 299) ∧ status response ≠ 404
    ∧ console st'
      = console st
        ++ [LogLead lead;
            ErrorSync (HubSpotFailed "update" (status response)
                         (getHubSpotErrorMessage response))].
Proof.
  intros Hacc Hv Ht Henc Hpatch.
  pose proof (validLead_not_null _ Hv) as Hp.
  unfold Netlify.handler. netlify_intake Hacc.
  do 7 step_field Hp. pass_validation Hv. step_iso.
  rewrite (bind_run _ _ _ _ _ (log_run _ _)).
  set (lead := mkLead _ _ _ _ _ _ _ _). set (st9 := mkState _ _ _ _).
  destruct (syncLeadToHubSpot_update_failed lead _ encoded st9 Ht eq_refl Henc Hpatch)
    as (st10 & patch & response & Es & Hs1 & Hs2 & Hcalls & _ & Hcons & Hm1 & Hu1).
  erewrite bind_run.
  2:{ erewrite try_catch_throw by (erewrite bind_throw by exact Es; reflexivity).
      rewrite (bind_run _ _ _ _ _ (log_run _ _)). reflexivity. }
  cbv beta iota.
  eexists _, patch, response, lead. split; [reflexivity|].
  simpl. rewrite Hcalls, Hcons. subst st9. simpl. same. rewrite Sc, Sl.
  rewrite <- app_assoc. done.
Qed.

(** Without an access token the lead is accepted and nothing is sent. *)
Lemma netlify_skipped event st parsed :
  Netlify.accepted event st parsed →
  validLead parsed →
  HUBSPOT_ACCESS_TOKEN = [] →
  ∃ st', Netlify.handler event st = (Ok (json 200 couponPayload ∅), st')
         ∧ calls st' = calls st.
Proof.
  intros Hacc Hv Ht.
  pose proof (validLead_not_null _ Hv) as Hp.
  unfold Netlify.handler. netlify_intake Hacc.
  do 7 step_field Hp. pass_validation Hv. step_iso.
  rewrite (bind_run _ _ _ _ _ (log_run _ _)).
  erewrite bind_run.
  2:{ apply try_catch_ok.
      rewrite (bind_run _ _ _ _ _ (syncLeadToHubSpot_skipped _ _ Ht)).
      rewrite (bind_run _ _ _ _ _ (log_run _ _)). reflexivity. }
  cbv beta iota.
  eexists. split; [reflexivity|]. simpl. by same.
Qed.

(** An address that cannot be URL-encoded: 502 and nothing is sent. *)
Lemma netlify_unencodable event st parsed :
  Netlify.accepted event st parsed →
  validLead parsed →
  HUBSPOT_ACCESS_TOKEN ≠ [] →
  encodeURIComponent (toLowerCase (default [] (stringField parsed "email"))) = None →
  ∃ st', Netlify.handler event st
         = (Ok (json 502 (failure "Unable to save your lead right now. Please try again.") ∅),
            st')
         ∧ calls st' = calls st.
Proof.
  intros Hacc Hv Ht Henc.
  pose proof (validLead_not_null _ Hv) as Hp.
  unfold Netlify.handler. netlify_intake Hacc.
  do 7 step_field Hp. pass_validation Hv. step_iso.
  rewrite (bind_run _ _ _ _ _ (log_run _ _)).
  erewrite bind_run.
  2:{ erewrite try_catch_throw.
      2:{ erewrite bind_throw; [reflexivity|].
          by eapply syncLeadToHubSpot_URIError. }
      rewrite (bind_run _ _ _ _ _ (log_run _ _)). reflexivity. }
  cbv beta iota.
  eexists. split; [reflexivity|]. simpl. by same.
Qed.

Lemma accepted_empty event st :
  Netlify.httpMethod event = lit "POST" →
  Netlify.rawBodyOf event = [] →
  (isRateLimited (nextClock st) (Netlify.getClientIp event) (requestBuckets st)).1 = false →
  Netlify.accepted event st (JObj []).
Proof.
  intros Hpost Hraw Hlim. unfold Netlify.accepted. rewrite Hraw.
  repeat split; try done.
Qed.

Lemma netlify_empty_body event st :
  Netlify.httpMethod event = lit "POST" →
  Netlify.rawBodyOf event = [] →
  (isRateLimited (nextClock st) (Netlify.getClientIp event) (requestBuckets st)).1 = false →
  ∃ st', Netlify.handler event st
         = (Ok (json 400 (failure "Please send your name.") ∅), st').
Proof.
  intros Hpost Hraw Hlim.
  destruct (netlify_short_name event st (JObj [])) as (st' & E & _);
    [by apply accepted_empty | done | done | simpl; lia | eauto].
Qed.

Lemma plain_empty_body event st :
  Netlify.httpMethod event = lit "POST" →
  Netlify.rawBodyOf event = [] →
  (isRateLimited (nextClock st) (Netlify.getClientIp event) (requestBuckets st)).1 = false →
  ∃ st', NetlifyPlain.handler event st
         = (Ok (json 400 (failure "Please send a valid email address.") ∅), st').
Proof.
  intros Hpost Hraw Hlim.
  pose proof (accepted_empty _ _ Hpost Hraw Hlim) as Hacc.
  assert (JObj [] ≠ JNull) as Hp by done.
  unfold NetlifyPlain.handler. netlify_intake Hacc.
  do 6 step_field Hp.
  eexists. reflexivity.
Qed.

End NetlifyFacts.

(** ** The standalone server *)

Section ServerFacts.
Context {W : Type} {host : Host W}.
Implicit Types (st : State W) (req : Server.IncomingMessage) (parsed : JsValue).



(** Past the method, the rate limiter, the body stream and the parser. *)
Ltac server_intake Hacc :=
  let Hpost := fresh "Hpost" in
  let Hlim := fresh "Hlim" in
  let Hbody := fresh "Hbody" in
  let Hparse := fresh "Hparse" in
  let rawBody := fresh "rawBody" in
  destruct Hacc as (Hpost & Hlim & rawBody & Hbody & Hparse);
  rewrite Hpost, POST_is_not_OPTIONS, POST_is_POST; if_false;
  rewrite (bind_run _ _ _ _ _ (rateLimit_run _ _)), Hlim;
  cbv beta iota; rewrite Hbody, Hparse; cbv beta iota;
  match goal with
  | |- context [mkState ?b ?w ?c ?l] =>
      let st1 := fresh "st" in
      set (st1 := mkState b w c l);
      pose proof (sameModule_refl st1)
  end.



Lemma server_honeypot req st parsed company :
  Server.accepted req st parsed →
  field parsed "company" = Some (JStr company) →
  trim company ≠ [] →
  ∃ st', Server.handlePromoLead req st = (Ok (json 200 okPayload ∅), st')
         ∧ calls st' = calls st
         ∧ console st' = console st.
Proof.
  intros Hacc Hc Hne.
  assert (parsed ≠ JNull) as Hp by (intros ->; discriminate).
  unfold Server.handlePromoLead. server_intake Hacc.
  do 7 step_field Hp.
  rewrite (stringField_string _ _ _ Hc). cbn [default from_option id].
  rewrite (nonempty_true _ Hne).
  eexists. split; [reflexivity|]. by same.
Qed.

Lemma serverHubSpot_honeypot req st parsed company :
  Server.accepted req st parsed →
  field parsed "company" = Some (JStr company) →
  trim company ≠ [] →
  ∃ st', ServerHubSpot.handlePromoLead req st = (Ok (json 200 okPayload ∅), st')
         ∧ calls st' = calls st
         ∧ console st' = console st.
Proof.
  intros Hacc Hc Hne.
  assert (parsed ≠ JNull) as Hp by (intros ->; discriminate).
  unfold ServerHubSpot.handlePromoLead. server_intake Hacc.
  do 7 step_field Hp.
  rewrite (stringField_string _ _ _ Hc). cbn [default from_option id].
  rewrite (nonempty_true _ Hne).
  eexists. split; [reflexivity|]. by same.
Qed.


Lemma plain_honeypot event st parsed company :
  Netlify.accepted event st parsed →
  field parsed "company" = Some (JStr company) →
  trim company ≠ [] →
  ∃ st', NetlifyPlain.handler event st = (Ok (json 200 okPayload ∅), st')
         ∧ calls st' = calls st
         ∧ console st' = console st.
Proof.
  intros Hacc Hc Hne.
  assert (parsed ≠ JNull) as Hp by (intros ->; discriminate).
  unfold NetlifyPlain.handler. netlify_intake Hacc.
  do 6 step_field Hp.
  rewrite (stringField_string _ _ _ Hc). cbn [default from_option id].
  rewrite (nonempty_true _ Hne).
  eexists. split; [reflexivity|]. by same.
Qed.

(** An empty body that arrived whole is read as [{}] and fails the name
    check. *)
Lemma server_empty_body req st :
  Server.method req = lit "POST" →
  Server.parseBody req = Ok [] →
  (isRateLimited (nextClock st) (Server.getClientIp req) (requestBuckets st)).1 = false →
  (∃ st', Server.handlePromoLead req st
          = (Ok (json 400 (failure "Please send your name.") ∅), st'))
  ∧ (∃ st', ServerHubSpot.handlePromoLead req st
            = (Ok (json 400 (failure "Please send your name.") ∅), st')).
Proof.
  intros Hpost Hbody Hlim.
  assert (Server.accepted req st (JObj [])) as Hacc.
  { repeat split; [done | done |]. exists []. by split. }
  assert (JObj [] ≠ JNull) as Hp by done.
  split.
  - unfold Server.handlePromoLead. server_intake Hacc.
    do 7 step_field Hp. eexists. reflexivity.
  - unfold ServerHubSpot.handlePromoLead. server_intake Hacc.
    do 7 step_field Hp. eexists. reflexivity.
Qed.

End ServerFacts.

(** ** Outcomes on every path *)

Section Outcomes.
Context {W : Type} {host : Host W}.

Lemma post_ret {A} (a : A) (Q : Result A → Prop) : Q (Ok a) → post (ret (W:=W) a) Q.
Proof. intros H st. exact H. Qed.

Lemma post_any {A} (c : M W A) (Q : Result A → Prop) : (∀ r, Q r) → post c Q.
Proof. intros H st. apply H. Qed.

Lemma post_bind {A B} (c : M W A) (k : A → M W B) (Q : Result B → Prop) :
  post c (λ r, match r with Ok a => post (k a) Q | Throw e => Q (Throw e) end) →
  post (bind c k) Q.
Proof.
  intros H st. unfold bind. specialize (H st).
  destruct (c st) as [[a|e] st']; simpl in *; [apply H | exact H].
Qed.

Lemma post_try_catch {A} (c : M W A) (h : JsError → M W A) (Q : Result A → Prop) :
  post c (λ r, match r with Ok a => Q (Ok a) | Throw e => post (h e) Q end) →
  post (try_catch c h) Q.
Proof.
  intros H st. unfold try_catch. specialize (H st).
  destruct (c st) as [[a|e] st']; simpl in *; [exact H | apply H].
Qed.

Lemma post_values {A} (c : M W A) (Q : Result A → Prop) :
  (∀ st e st', c st ≠ (Throw e, st')) → (∀ a, Q (Ok a)) → post c Q.
Proof.
  intros Hc HQ st. destruct (c st) as [[a|e] st'] eqn:E; simpl; [apply HQ|].
  by apply Hc in E.
Qed.

Lemma post_rateLimit ip (Q : Result bool → Prop) :
  (∀ limited, Q (Ok limited)) → post (rateLimit (W:=W) ip) Q.
Proof. intros HQ st. rewrite rateLimit_run. apply HQ. Qed.

Lemma post_isoNow (Q : Result jsstring → Prop) :
  (∀ s, Q (Ok s)) → post (isoNow (W:=W)) Q.
Proof. intros HQ st. destruct (isoNow_run st) as (st' & -> & _). apply HQ. Qed.

Lemma post_log entry (Q : Result unit → Prop) : Q (Ok tt) → post (log (W:=W) entry) Q.
Proof. intros HQ st. exact HQ. Qed.

Lemma post_trimmedString parsed key (fallback : M W jsstring) (Q : Result jsstring → Prop) :
  Q (Throw TypeError) → (∀ s, Q (Ok s)) → post fallback Q →
  post (trimmedString parsed key fallback) Q.
Proof.
  intros Hnull Hs Hf st.
  assert ({parsed = JNull} + {parsed ≠ JNull}) as [->|Hp]
    by (destruct parsed; (by left) || (by right)).
  - exact Hnull.
  - rewrite trimmedString_run by done.
    destruct (stringField parsed key); [apply Hs | apply Hf].
Qed.

End Outcomes.

(** Whatever [extraHeaders] are given, unless they set the header
    themselves, [json] sets it. *)
Lemma json_noStore statusCode payload (extraHeaders : gmap string string) :
  extraHeaders !! "Cache-Control" = None →
  noStore (json statusCode payload extraHeaders).
Proof.
  intros Hx. unfold noStore, json. simpl.
  rewrite lookup_union_r by done. reflexivity.
Qed.

(** One step along every path of a handler. *)
Ltac post_step HT HQ :=
  cbv beta iota zeta;
  lazymatch goal with
  | |- post (if ?b then _ else _) _ => destruct b
  | |- post (match ?x with _ => _ end) _ => destruct x
  | |- post (bind _ _) _ => apply post_bind
  | |- post (try_catch _ _) _ => apply post_try_catch
  | |- post (ret _) _ => apply post_ret
  | |- post (rateLimit _) _ => apply post_rateLimit; intros ?
  | |- post isoNow _ => apply post_isoNow; intros ?
  | |- post (log _) _ => apply post_log
  | |- post (trimmedString _ _ _) _ =>
      apply post_trimmedString; [exact HT | intros ? | ]
  | |- post (syncLeadToHubSpot _) _ => apply post_any; intros [?|?]
  | |- noStore (json _ _ ∅) => apply json_noStore, lookup_empty
  | |- noStore (json _ _ {[ _ := _ ]}) =>
      apply json_noStore, lookup_singleton_ne; discriminate
  | |- _ => apply HQ
  end.

Section NoStore.
Context {W : Type} {host : Host W}.

Lemma netlify_post event (Q : Result Response → Prop) :
  Q (Throw TypeError) →
  (∀ response, noStore response → Q (Ok response)) →
  post (Netlify.handler (W:=W) event) Q.
Proof.
  intros HT HQ. unfold Netlify.handler.
  repeat post_step HT HQ.
Qed.

Lemma plain_post event (Q : Result Response → Prop) :
  Q (Throw TypeError) →
  (∀ response, noStore response → Q (Ok response)) →
  post (NetlifyPlain.handler (W:=W) event) Q.
Proof.
  intros HT HQ. unfold NetlifyPlain.handler.
  repeat post_step HT HQ.
Qed.

Lemma server_post req (Q : Result Response → Prop) :
  Q (Throw TypeError) →
  (∀ response, noStore response → Q (Ok response)) →
  post (Server.handlePromoLead (W:=W) req) Q.
Proof.
  intros HT HQ. unfold Server.handlePromoLead.
  repeat post_step HT HQ.
Qed.

Lemma serverHubSpot_post req (Q : Result Response → Prop) :
  Q (Throw TypeError) →
  (∀ response, noStore response → Q (Ok response)) →
  post (ServerHubSpot.handlePromoLead (W:=W) req) Q.
Proof.
  intros HT HQ. unfold ServerHubSpot.handlePromoLead.
  repeat post_step HT HQ.
Qed.

(** The server's listener answers whatever happens, 500 at worst. *)
Lemma server_always_answers req (st : State W) :
  ∃ response, (Server.servePromoLead req st).1 = Ok response ∧ noStore response.
Proof.
  revert st.
  change (post (Server.servePromoLead (W:=W) req)
            (λ r, ∃ response, r = Ok response ∧ noStore response)).
  unfold Server.servePromoLead. apply post_try_catch. apply server_post.
  - apply post_ret. eexists. split; [reflexivity | reflexivity].
  - intros response Hr. eauto.
Qed.

Lemma serverHubSpot_always_answers req (st : State W) :
  ∃ response, (ServerHubSpot.servePromoLead req st).1 = Ok response ∧ noStore response.
Proof.
  revert st.
  change (post (ServerHubSpot.servePromoLead (W:=W) req)
            (λ r, ∃ response, r = Ok response ∧ noStore response)).
  unfold ServerHubSpot.servePromoLead. apply post_try_catch. apply serverHubSpot_post.
  - apply post_ret. eexists. split; [reflexivity | reflexivity].
  - intros response Hr. eauto.
Qed.

End NoStore.

(** ** The claims about the handlers *)

(** Closed facts about the sample data are settled by evaluation. *)
Ltac evaluated :=
  vm_compute; repeat split;
  first [ reflexivity | lia | discriminate | (intros ?; discriminate) | (eexists; reflexivity) ].

(** The sample CRMs answer as they are meant to, whatever the token. *)
Lemma crmCreates_update token :
  answers (host := sampleHost token crmCreates)
    (λ request, fetch_method request = lit "PATCH") (λ response, status response = 404).
Proof.
  intros request w Hr. eexists _, _. split; [reflexivity|].
  simpl. unfold crmCreates. by rewrite Hr.
Qed.

Lemma crmCreates_create token :
  answers (host := sampleHost token crmCreates)
    (λ request, fetch_method request = lit "POST") (λ response, status response = 201).
Proof.
  intros request w Hr. eexists _, _. split; [reflexivity|].
  simpl. unfold crmCreates. by rewrite Hr.
Qed.

Lemma crmCreates_create_2xx token :
  answers (host := sampleHost token crmCreates)
    (λ request, fetch_method request = lit "POST")
    (λ response, 200 ≤ status response ≤ 299).
Proof.
  intros request w Hr. destruct (crmCreates_create token request w Hr) as (r & w' & E & Hs).
  exists r, w'. split; [done | lia].
Qed.

Lemma crmFails_update token :
  answers (host := sampleHost token crmFails)
    (λ request, fetch_method request = lit "PATCH")
    (λ response, ¬ (200 ≤ status response ≤ 299) ∧ status response ≠ 404).
Proof.
  intros request w Hr. eexists _, _. split; [reflexivity|]. simpl. lia.
Qed.

(** C2 (as stated, refuted).  The lead of [sampleLead] is valid and the CRM
    answers every update with 404 and every create with 201.  When no access
    token is configured the handler answers 200 with the coupon and sends
    nothing.  With a token, a valid lead whose address holds an unpaired
    surrogate is answered 502, again with nothing sent. *)
Lemma C2_two_calls_counterexample :
  validLead (flatValue sampleLead)
  ∧ Netlify.accepted (host := sampleHost [] crmCreates)
      (sampleEvent (flatText sampleLead)) (sampleState ∅) (flatValue sampleLead)
  ∧ answers (host := sampleHost [] crmCreates)
      (λ request, fetch_method request = lit "PATCH") (λ response, status response = 404)
  ∧ answers (host := sampleHost [] crmCreates)
      (λ request, fetch_method request = lit "POST") (λ response, status response = 201)
  ∧ (Netlify.handler (host := sampleHost [] crmCreates)
       (sampleEvent (flatText sampleLead)) (sampleState ∅)).1
    = Ok (json 200 couponPayload ∅)
  ∧ calls (Netlify.handler (host := sampleHost [] crmCreates)
             (sampleEvent (flatText sampleLead)) (sampleState ∅)).2 = []
  ∧ validLead surrogateValue
  ∧ Netlify.accepted (host := sampleHost sampleToken crmCreates)
      (sampleEvent surrogateText) (sampleState ∅) surrogateValue
  ∧ (Netlify.handler (host := sampleHost sampleToken crmCreates)
       (sampleEvent surrogateText) (sampleState ∅)).1
    = Ok (json 502 (failure "Unable to save your lead right now. Please try again.") ∅)
  ∧ calls (Netlify.handler (host := sampleHost sampleToken crmCreates)
             (sampleEvent surrogateText) (sampleState ∅)).2 = [].
Proof.
  split; [evaluated|]. split; [evaluated|].
  split; [apply crmCreates_update|]. split; [apply crmCreates_create|].
  split; [evaluated|]. split; [evaluated|].
  split; [evaluated|]. split; [evaluated|].
  split; evaluated.
Qed.

Lemma C2_not_found_then_created_witness :
  ∃ st' patch post,
    Netlify.handler (host := sampleHost sampleToken crmCreates)
      (sampleEvent (flatText sampleLead)) (sampleState ∅)
    = (Ok (json 200 couponPayload ∅), st')
    ∧ calls st' = calls (sampleState ∅) ++ [patch; post]
    ∧ fetch_method patch = lit "PATCH"
    ∧ url patch = lit "https://api.hubapi.com" ++ lit "/crm/v3/objects/contacts/"
                    ++ lit "a%40b.co" ++ lit "?idProperty=email"
    ∧ fetch_method post = lit "POST"
    ∧ url post = lit "https://api.hubapi.com" ++ lit "/crm/v3/objects/contacts".
Proof.
  apply (C2_not_found_then_created (host := sampleHost sampleToken crmCreates)
           (sampleEvent (flatText sampleLead)) (sampleState ∅) (flatValue sampleLead)
           (lit "a%40b.co")).
  - evaluated.
  - evaluated.
  - discriminate.
  - vm_compute. reflexivity.
  - apply crmCreates_update.
  - apply crmCreates_create_2xx.
Defined.

(** C3 (as stated, refuted).  The lead of [sampleLead] is valid and the CRM
    answers every update with 500.  When no access token is configured the
    handler answers 200 with the coupon, not 502, and sends nothing.  With
    a token, a valid lead whose address holds an unpaired surrogate is
    answered 502 with no CRM call at all, not one. *)
Lemma C3_one_call_counterexample :
  validLead (flatValue sampleLead)
  ∧ Netlify.accepted (host := sampleHost [] crmFails)
      (sampleEvent (flatText sampleLead)) (sampleState ∅) (flatValue sampleLead)
  ∧ answers (host := sampleHost [] crmFails)
      (λ request, fetch_method request = lit "PATCH")
      (λ response, ¬ (200 ≤ status response ≤ 299) ∧ status response ≠ 404)
  ∧ (Netlify.handler (host := sampleHost [] crmFails)
       (sampleEvent (flatText sampleLead)) (sampleState ∅)).1
    = Ok (json 200 couponPayload ∅)
  ∧ calls (Netlify.handler (host := sampleHost [] crmFails)
             (sampleEvent (flatText sampleLead)) (sampleState ∅)).2 = []
  ∧ validLead surrogateValue
  ∧ Netlify.accepted (host := sampleHost sampleToken crmFails)
      (sampleEvent surrogateText) (sampleState ∅) surrogateValue
  ∧ (Netlify.handler (host := sampleHost sampleToken crmFails)
       (sampleEvent surrogateText) (sampleState ∅)).1
    = Ok (json 502 (failure "Unable to save your lead right now. Please try again.") ∅)
  ∧ calls (Netlify.handler (host := sampleHost sampleToken crmFails)
             (sampleEvent surrogateText) (sampleState ∅)).2 = [].
Proof.
  split; [evaluated|]. split; [evaluated|].
  split; [apply crmFails_update|].
  split; [evaluated|]. split; [evaluated|].
  split; [evaluated|]. split; [evaluated|].
  split; evaluated.
Qed.

Lemma C3_update_failure_is_502_witness :
  ∃ st' patch response lead,
    Netlify.handler (host := sampleHost sampleToken crmFails)
      (sampleEvent (flatText sampleLead)) (sampleState ∅)
    = (Ok (json 502 (failure "Unable to save your lead right now. Please try again.") ∅), st')
    ∧ calls st' = calls (sampleState ∅) ++ [patch]
    ∧ fetch_method patch = lit "PATCH"
    ∧ url patch = lit "https://api.hubapi.com" ++ lit "/crm/v3/objects/contacts/"
                    ++ lit "a%40b.co" ++ lit "?idProperty=email"
    ∧ ¬ (200 ≤ status response ≤ 299) ∧ status response ≠ 404
    ∧ console st'
      = console (sampleState ∅)
        ++ [LogLead lead;
            ErrorSync (HubSpotFailed "update" (status response)
                         (getHubSpotErrorMessage (host := sampleHost sampleToken crmFails)
                            response))].
Proof.
  apply (C3_update_failure_is_502 (host := sampleHost sampleToken crmFails)
           (sampleEvent (flatText sampleLead)) (sampleState ∅) (flatValue sampleLead)
           (lit "a%40b.co")).
  - evaluated.
  - evaluated.
  - discriminate.
  - vm_compute. reflexivity.
  - apply crmFails_update.
Defined.

(** C4 (as stated, refuted).  A company of three spaces is a non-empty
    field of the parsed body, and so is a company that is an array holding
    a string; with a valid name and address either request is answered 200
    with the coupon and the lead is forwarded to the CRM. *)
Lemma C4_untrimmed_honeypot_counterexample :
  field (flatValue sampleBlankCompany) "company" = Some (JStr (lit "   "))
  ∧ Netlify.accepted (host := sampleHost sampleToken crmCreates)
      (sampleEvent (flatText sampleBlankCompany)) (sampleState ∅)
      (flatValue sampleBlankCompany)
  ∧ (Netlify.handler (host := sampleHost sampleToken crmCreates)
       (sampleEvent (flatText sampleBlankCompany)) (sampleState ∅)).1
    = Ok (json 200 couponPayload ∅)
  ∧ List.map fetch_method
      (calls (Netlify.handler (host := sampleHost sampleToken crmCreates)
                (sampleEvent (flatText sampleBlankCompany)) (sampleState ∅)).2)
    = [lit "PATCH"; lit "POST"]
  ∧ field arrayCompanyValue "company" = Some (JArr [JStr (lit "Acme Bots")])
  ∧ Netlify.accepted (host := sampleHost sampleToken crmCreates)
      (sampleEvent arrayCompanyText) (sampleState ∅) arrayCompanyValue
  ∧ (Netlify.handler (host := sampleHost sampleToken crmCreates)
       (sampleEvent arrayCompanyText) (sampleState ∅)).1
    = Ok (json 200 couponPayload ∅)
  ∧ List.map fetch_method
      (calls (Netlify.handler (host := sampleHost sampleToken crmCreates)
                (sampleEvent arrayCompanyText) (sampleState ∅)).2)
    = [lit "PATCH"; lit "POST"].
Proof.
  split; [evaluated|]. split; [evaluated|]. split; [evaluated|]. split; [evaluated|].
  split; [evaluated|]. split; [evaluated|]. split; evaluated.
Qed.

(** C4 (amended).  For every POST request that reaches the parser and whose
    parsed body carries a honeypot field (company) that is a string and is
    not empty once trimmed, each of the four handlers returns 200
    {ok:true}, which has no coupon, sends nothing to the CRM and logs
    nothing, whatever the name and the address are. *)
Theorem C4_honeypot_short_circuit {W : Type} {host : Host W}
    (event : Netlify.Event) (req : Server.IncomingMessage) (st : State W)
    (parsed : JsValue) (company : jsstring) :
  field parsed "company" = Some (JStr company) →
  trim company ≠ [] →
  field okPayload "coupon" = None
  ∧ (Netlify.accepted event st parsed →
       (∃ st', Netlify.handler event st = (Ok (json 200 okPayload ∅), st')
               ∧ calls st' = calls st ∧ console st' = console st)
       ∧ (∃ st', NetlifyPlain.handler event st = (Ok (json 200 okPayload ∅), st')
                 ∧ calls st' = calls st ∧ console st' = console st))
  ∧ (Server.accepted req st parsed →
       (∃ st', Server.handlePromoLead req st = (Ok (json 200 okPayload ∅), st')
               ∧ calls st' = calls st ∧ console st' = console st)
       ∧ (∃ st', ServerHubSpot.handlePromoLead req st = (Ok (json 200 okPayload ∅), st')
                 ∧ calls st' = calls st ∧ console st' = console st)).
Proof.
  intros Hc Hne. split; [reflexivity|]. split; intros Hacc; split.
  - by eapply netlify_honeypot.
  - by eapply plain_honeypot.
  - by eapply server_honeypot.
  - by eapply serverHubSpot_honeypot.
Qed.

Lemma C4_honeypot_short_circuit_witness :
  (∃ st', Netlify.handler (host := sampleHost sampleToken crmCreates)
            (sampleEvent (flatText sampleHoneypot)) (sampleState ∅)
          = (Ok (json 200 okPayload ∅), st')
          ∧ calls st' = calls (sampleState ∅) ∧ console st' = console (sampleState ∅))
  ∧ (∃ st', Server.handlePromoLead (host := sampleHost sampleToken crmCreates)
              (sampleRequest [flatText sampleHoneypot]) (sampleState ∅)
            = (Ok (json 200 okPayload ∅), st')
            ∧ calls st' = calls (sampleState ∅) ∧ console st' = console (sampleState ∅)).
Proof.
  destruct (C4_honeypot_short_circuit (host := sampleHost sampleToken crmCreates)
              (sampleEvent (flatText sampleHoneypot))
              (sampleRequest [flatText sampleHoneypot]) (sampleState ∅)
              (flatValue sampleHoneypot) (lit "Acme Bots"))
    as (_ & Hn & Hs); [reflexivity | discriminate |].
  split.
  - apply Hn. evaluated.
  - apply Hs. split; [reflexivity|]. split; [vm_compute; reflexivity|].
    exists (flatText sampleHoneypot). split; vm_compute; reflexivity.
Defined.








(** C8.  Every response the promo-lead endpoint produces carries
    [Cache-Control: no-store].  Each serverless function ends with such a
    response or with the [TypeError] it does not catch; each standalone
    server always answers, 500 at worst, with such a response.  The header
    comes from [json], which sets it unless the extra headers override
    it. *)
Theorem C8_cache_control_no_store {W : Type} {host : Host W}
    (event : Netlify.Event) (req : Server.IncomingMessage) (st : State W) :
  endsNoStore (Netlify.handler event st).1
  ∧ endsNoStore (NetlifyPlain.handler event st).1
  ∧ (∃ response, (Server.servePromoLead req st).1 = Ok response ∧ noStore response)
  ∧ (∃ response, (ServerHubSpot.servePromoLead req st).1 = Ok response ∧ noStore response)
  ∧ ∀ statusCode payload (extraHeaders : gmap string string),
      extraHeaders !! "Cache-Control" = None →
      noStore (json statusCode payload extraHeaders).
Proof.
  split; [by apply (netlify_post event endsNoStore)|].
  split; [by apply (plain_post event endsNoStore)|].
  split; [apply server_always_answers|].
  split; [apply serverHubSpot_always_answers|].
  apply json_noStore.
Qed.

(** C9.  A POST with an empty raw body that the rate limiter lets through
    is not answered "Invalid request body.": the body is read as the empty
    object and fails the validation, with "Please send your name." where a
    name is collected and "Please send a valid email address." in the
    e-mail-only function. *)
Theorem C9_empty_body {W : Type} {host : Host W}
    (event : Netlify.Event) (req : Server.IncomingMessage) (st : State W) :
  parseRawBody [] = Some (JObj [])
  ∧ failure "Please send your name." ≠ failure "Invalid request body."
  ∧ failure "Please send a valid email address." ≠ failure "Invalid request body."
  ∧ (Netlify.httpMethod event = lit "POST" →
     Netlify.rawBodyOf event = [] →
     (isRateLimited (nextClock st) (Netlify.getClientIp event) (requestBuckets st)).1 = false →
     (∃ st', Netlify.handler event st
             = (Ok (json 400 (failure "Please send your name.") ∅), st'))
     ∧ (∃ st', NetlifyPlain.handler event st
               = (Ok (json 400 (failure "Please send a valid email address.") ∅), st')))
  ∧ (Server.method req = lit "POST" →
     Server.parseBody req = Ok [] →
     (isRateLimited (nextClock st) (Server.getClientIp req) (requestBuckets st)).1 = false →
     (∃ st', Server.handlePromoLead req st
             = (Ok (json 400 (failure "Please send your name.") ∅), st'))
     ∧ (∃ st', ServerHubSpot.handlePromoLead req st
               = (Ok (json 400 (failure "Please send your name.") ∅), st'))).
Proof.
  split; [reflexivity|]. split; [discriminate|]. split; [discriminate|]. split.
  - intros Hpost Hraw Hlim. split;
      [by apply netlify_empty_body | by apply plain_empty_body].
  - intros Hpost Hbody Hlim. by apply server_empty_body.
Qed.

Lemma C9_empty_body_witness :
  (∃ st', Netlify.handler (host := sampleHost sampleToken crmCreates)
            (sampleEvent []) (sampleState ∅)
          = (Ok (json 400 (failure "Please send your name.") ∅), st'))
  ∧ (∃ st', NetlifyPlain.handler (host := sampleHost sampleToken crmCreates)
              (sampleEvent []) (sampleState ∅)
            = (Ok (json 400 (failure "Please send a valid email address.") ∅), st'))
  ∧ (∃ st', Server.handlePromoLead (host := sampleHost sampleToken crmCreates)
              (sampleRequest []) (sampleState ∅)
            = (Ok (json 400 (failure "Please send your name.") ∅), st')).
Proof.
  destruct (C9_empty_body (host := sampleHost sampleToken crmCreates)
              (sampleEvent []) (sampleRequest []) (sampleState ∅))
    as (_ & _ & _ & Hn & Hs).
  destruct Hn as (H1 & H2); [reflexivity | reflexivity | vm_compute; reflexivity |].
  destruct Hs as (H3 & _); [reflexivity | reflexivity | vm_compute; reflexivity |].
  split; [exact H1 | split; [exact H2 | exact H3]].
Defined.

(** * Further properties *)

(** ** The rate limiter over a run of checks *)

Section RateLimiterRuns.
Implicit Types (m : Buckets) (ip : jsstring) (T t : Z) (checks : list (Z * jsstring)).

Lemma run_checks_cons t ip checks m :
  (run_checks ((t, ip) :: checks) m).2 = (run_checks checks (isRateLimited t ip m).2).2.
Proof.
  cbn [run_checks]. destruct (isRateLimited t ip m) as [limited m']. cbn [snd].
  by destruct (run_checks checks m').
Qed.

Lemma run_checks_app checks1 checks2 m :
  (run_checks (checks1 ++ checks2) m).2 = (run_checks checks2 (run_checks checks1 m).2).2.
Proof.
  revert m. induction checks1 as [|[t ip] rest IH]; intros m; [done|].
  rewrite <- app_comm_cons, !run_checks_cons. apply IH.
Qed.

Lemma run_checks_one t ip m : (run_checks [(t, ip)] m).2 = (isRateLimited t ip m).2.
Proof. by rewrite run_checks_cons. Qed.

Lemma bucket_other t ip ip' m :
  ip' ≠ ip → bucket ip' (isRateLimited t ip m).2 = bucket ip' m.
Proof. intros Hne. unfold bucket. by rewrite isRateLimited_other. Qed.

Lemma filter_window_twice T T0 (l : list Z) :
  T0 ≤ T →
  filter (λ t, T - t < RATE_WINDOW_MS) (filter (λ t, T0 - t < RATE_WINDOW_MS) l)
  = filter (λ t, T - t < RATE_WINDOW_MS) l.
Proof.
  intros Hle. induction l as [|x l IH]; [done|].
  rewrite !filter_cons.
  destruct (decide (T0 - x < RATE_WINDOW_MS)), (decide (T - x < RATE_WINDOW_MS));
    rewrite ?filter_cons; try destruct (decide (T - x < RATE_WINDOW_MS));
    try lia; by rewrite IH.
Qed.

(** Along a run from the empty map in which the clock never goes back, what
    is left of a client's bucket at a later time is what is left of all its
    checks. *)
Lemma bucket_is_recent checks ip T :
  clockNeverGoesBack (checks ++ [(T, ip)]) →
  filter (λ t, T - t < RATE_WINDOW_MS) (bucket ip (run_checks checks ∅).2)
  = (recent T ip checks).*1.
Proof.
  unfold clockNeverGoesBack. revert T.
  induction checks as [|[T0 ip0] pre IH] using rev_ind; intros T Hs.
  - done.
  - rewrite run_checks_app, run_checks_one.
    apply StronglySorted_app in Hs as (Hlast & Hpre & _).
    assert (T0 ≤ T) as Hle.
    { apply (Hlast (T0, ip0) (T, ip)); [apply elem_of_app; right|]; by apply list_elem_of_singleton. }
    assert (StronglySorted (λ a b, a.1 ≤ b.1) (pre ++ [(T, ip)])) as Hs'.
    { apply StronglySorted_app in Hpre as (H1 & H2 & _).
      apply StronglySorted_app. split; [|split; [done | repeat constructor]].
      intros a b Ha Hb. apply list_elem_of_singleton in Hb as ->. simpl.
      specialize (H1 a (T0, ip0) Ha). simpl in H1.
      etrans; [apply H1; by apply list_elem_of_singleton | exact Hle]. }
    unfold recent. rewrite filter_app, fmap_app.
    destruct (decide (ip0 = ip)) as [->|Hne].
    + rewrite isRateLimited_bucket, filter_app, filter_window_twice by done.
      fold (recent T ip pre). rewrite (IH T Hs'). f_equal.
      rewrite !filter_cons, !filter_nil. simpl.
      destruct (decide (T - T0 < RATE_WINDOW_MS)), (decide (ip = ip ∧ T - T0 < RATE_WINDOW_MS));
        try done; tauto.
    + rewrite bucket_other by done.
      fold (recent T ip pre). rewrite (IH T Hs').
      rewrite filter_cons, filter_nil. simpl.
      destruct (decide (ip0 = ip ∧ T - T0 < RATE_WINDOW_MS)) as [[? _]|_]; [done|].
      by rewrite app_nil_r.
Qed.

Lemma length_filter_window T T0 (l : list Z) :
  (length (filter (λ t, (T - t < RATE_WINDOW_MS)%Z)
             (filter (λ t, (T0 - t < RATE_WINDOW_MS)%Z) l))
   ≤ length (filter (λ t, (T - t < RATE_WINDOW_MS)%Z) l))%nat.
Proof.
  induction l as [|x l IH]; [done|].
  rewrite !filter_cons.
  destruct (decide (T0 - x < RATE_WINDOW_MS)), (decide (T - x < RATE_WINDOW_MS));
    rewrite ?filter_cons; try destruct (decide (T - x < RATE_WINDOW_MS));
    simpl; lia.
Qed.

(** Whatever the clock does, what is left of a bucket is no more than what
    is left of the client's checks. *)
Lemma bucket_within_recent checks ip T :
  (length (filter (λ t, (T - t < RATE_WINDOW_MS)%Z) (bucket ip (run_checks checks ∅).2))
   ≤ length (recent T ip checks))%nat.
Proof.
  induction checks as [|[T0 ip0] pre IH] using rev_ind; [done|].
  rewrite run_checks_app, run_checks_one.
  unfold recent. rewrite filter_app, length_app. fold (recent T ip pre).
  destruct (decide (ip0 = ip)) as [->|Hne].
  - rewrite isRateLimited_bucket, filter_app, length_app.
    pose proof (length_filter_window T T0 (bucket ip (run_checks pre ∅).2)).
    rewrite !filter_cons, !filter_nil. simpl.
    destruct (decide (T - T0 < RATE_WINDOW_MS)), (decide (ip = ip ∧ T - T0 < RATE_WINDOW_MS));
      simpl; try lia; tauto.
  - rewrite bucket_other by done. lia.
Qed.

(** Every client that was checked has an entry, and no other. *)
Lemma run_checks_keys checks ip :
  is_Some ((run_checks checks ∅).2 !! ip) ↔ ip ∈ checks.*2.
Proof.
  induction checks as [|[T0 ip0] pre IH] using rev_ind.
  - simpl. rewrite lookup_empty, is_Some_alt. split; [done | by intros ?%elem_of_nil].
  - rewrite run_checks_app, run_checks_one, fmap_app, elem_of_app, <- IH.
    rewrite isRateLimited_store. cbn [fmap list_fmap snd]. rewrite list_elem_of_singleton.
    destruct (decide (ip0 = ip)) as [->|Hne].
    + rewrite lookup_insert_eq. split; [by right | by eexists].
    + rewrite lookup_insert_ne by done. split; [by left | by intros [?|?]].
Qed.

Lemma run_checks_no_empty_bucket checks ip :
  (run_checks checks ∅).2 !! ip ≠ Some [].
Proof.
  induction checks as [|[T0 ip0] pre IH] using rev_ind; [done|].
  rewrite run_checks_app, run_checks_one, isRateLimited_store.
  destruct (decide (ip0 = ip)) as [->|Hne].
  - rewrite lookup_insert_eq. intros [= E]. by apply app_nil in E as [_ ?].
  - by rewrite lookup_insert_ne.
Qed.

End RateLimiterRuns.

(** X1.  Along any run of checks that starts from the empty map and in which
    the clock never goes back, a check is rejected if and only if at least
    five earlier checks of the same client, accepted or rejected, are less
    than 15 minutes old; the checks of other clients do not count. *)
Theorem sliding_window_characterisation
    (checks : list (Z * jsstring)) (T : Z) (ip : jsstring) :
  clockNeverGoesBack (checks ++ [(T, ip)]) →
  (isRateLimited T ip (run_checks checks ∅).2).1 = true
  ↔ (5 ≤ length (recent T ip checks))%nat.
Proof.
  intros Hs. rewrite isRateLimited_answer, (bucket_is_recent _ _ _ Hs).
  by rewrite length_fmap.
Qed.

Lemma sliding_window_characterisation_witness :
  (isRateLimited 5 sampleIp (run_checks mixedRun ∅).2).1 = true
  ↔ (5 ≤ length (recent 5 sampleIp mixedRun))%nat.
Proof.
  apply sliding_window_characterisation.
  unfold clockNeverGoesBack, mixedRun. cbn [app].
  repeat first [apply SSorted_nil | apply SSorted_cons | apply Forall_nil_2 | apply Forall_cons_2];
    simpl; lia.
Defined.

(** X2.  Whatever the clock does, forwards or backwards, a check is accepted
    when fewer than five earlier checks of the same client are less than 15
    minutes old: the first five checks of a client always pass, and so does
    a client that kept silent for a full window, however often it was
    rejected before. *)
Theorem accepted_when_few_recent
    (checks : list (Z * jsstring)) (T : Z) (ip : jsstring) :
  (length (recent T ip checks) ≤ 4)%nat →
  (isRateLimited T ip (run_checks checks ∅).2).1 = false.
Proof.
  intros Hfew. apply isRateLimited_answer_false.
  etrans; [apply bucket_within_recent | exact Hfew].
Qed.

Lemma accepted_when_few_recent_witness :
  (isRateLimited 900005 sampleIp (run_checks sixChecks ∅).2).1 = false.
Proof.
  apply accepted_when_few_recent. vm_compute. lia.
Defined.

(** X3.  The map of buckets never forgets a client: after any run of checks
    it holds an entry for exactly the clients that were ever checked, and no
    entry is empty.  Nothing in the module removes a key. *)
Theorem buckets_never_evicted (checks : list (Z * jsstring)) (ip : jsstring) :
  (ip ∈ checks.*2 ↔ ∃ l, (run_checks checks ∅).2 !! ip = Some l ∧ l ≠ [])
  ∧ (ip ∉ checks.*2 ↔ (run_checks checks ∅).2 !! ip = None).
Proof.
  split.
  - rewrite <- run_checks_keys. split.
    + intros [l Hl]. exists l. split; [done|]. intros ->. by apply run_checks_no_empty_bucket in Hl.
    + intros (l & Hl & _). by exists l.
  - rewrite <- run_checks_keys, eq_None_not_Some. done.
Qed.
(** ** Reading the body of a request *)

Section BodyStream.
Implicit Types (s rawBody : jsstring) (chunks : list jsstring).

Lemma byteLength_nonneg s : 0 ≤ byteLength s.
Proof.
  remember (length s) as n eqn:Hn. revert s Hn.
  induction n as [n IH] using lt_wf_ind. intros [|c [|d rest]] Hn; simpl in *.
  - lia.
  - repeat case_match; lia.
  - pose proof (IH (length rest) ltac:(lia) rest eq_refl).
    pose proof (IH (length (d :: rest)) ltac:(simpl; lia) (d :: rest) eq_refl) as H2.
    cbn [byteLength] in H2. repeat case_match; lia.
Qed.

(** Appending text never makes the encoding shorter, even when it completes
    a surrogate pair. *)
Lemma byteLength_app_le s1 s2 : byteLength s1 ≤ byteLength (s1 ++ s2).
Proof.
  remember (length s1) as n eqn:Hn. revert s1 Hn.
  induction n as [n IH] using lt_wf_ind. intros [|c [|d rest]] Hn.
  - apply byteLength_nonneg.
  - pose proof (byteLength_nonneg s2).
    destruct s2 as [|d s2]; [simpl; lia|].
    pose proof (byteLength_nonneg s2).
    change ([c] ++ d :: s2) with (c :: d :: s2).
    cbn [byteLength] in *. repeat case_match; lia.
  - pose proof (IH (length rest) ltac:(simpl in Hn; lia) rest eq_refl).
    pose proof (IH (length (d :: rest)) ltac:(simpl in Hn |- *; lia) (d :: rest) eq_refl) as H2.
    change ((c :: d :: rest) ++ s2) with (c :: d :: (rest ++ s2)).
    change ((d :: rest) ++ s2) with (d :: (rest ++ s2)) in H2.
    cbn [byteLength] in *. repeat case_match; lia.
Qed.

Lemma readChunks_outcome rawBody chunks fin :
  byteLength rawBody ≤ MAX_BODY_SIZE →
  match Server.readChunks rawBody chunks fin with
  | Ok raw =>
      fin = Server.StreamEnded ∧ raw = rawBody ++ concat chunks
      ∧ byteLength raw ≤ MAX_BODY_SIZE
  | Throw PAYLOAD_TOO_LARGE => byteLength (rawBody ++ concat chunks) > MAX_BODY_SIZE
  | Throw StreamError =>
      fin = Server.StreamFailed ∧ byteLength (rawBody ++ concat chunks) ≤ MAX_BODY_SIZE
  | Throw _ => False
  end.
Proof.
  revert rawBody. induction chunks as [|chunk rest IH]; intros rawBody Hle; simpl.
  - rewrite app_nil_r. by destruct fin.
  - destruct (Z.gtb_spec (byteLength (rawBody ++ chunk)) MAX_BODY_SIZE) as [Hbig|Hsmall].
    + pose proof (byteLength_app_le (rawBody ++ chunk) (concat rest)) as Hmono.
      rewrite <- app_assoc in Hmono. lia.
    + specialize (IH (rawBody ++ chunk) Hsmall). by rewrite <- app_assoc in IH.
Qed.

End BodyStream.

(** X4.  [parseBody] resolves exactly when the stream ends and the whole
    body is within 16384 bytes, and then with the chunks put together; it
    rejects with [PAYLOAD_TOO_LARGE] exactly when the whole body is over the
    limit, whether or not the stream would have ended; it rejects with the
    stream's error exactly when the stream fails on a body within the
    limit. *)
Theorem parseBody_outcomes (req : Server.IncomingMessage) :
  let whole := concat (Server.chunks req) in
  (∀ raw, Server.parseBody req = Ok raw
          ↔ Server.streamEnd req = Server.StreamEnded ∧ raw = whole
            ∧ byteLength whole ≤ MAX_BODY_SIZE)
  ∧ (Server.parseBody req = Throw PAYLOAD_TOO_LARGE ↔ byteLength whole > MAX_BODY_SIZE)
  ∧ (Server.parseBody req = Throw StreamError
     ↔ Server.streamEnd req = Server.StreamFailed ∧ byteLength whole ≤ MAX_BODY_SIZE).
Proof.
  intros whole.
  pose proof (readChunks_outcome [] (Server.chunks req) (Server.streamEnd req)) as H.
  fold (Server.parseBody req) in H. fold whole in H. simpl in H.
  specialize (H ltac:(by unfold MAX_BODY_SIZE)).
  destruct (Server.parseBody req) as [raw|[]]; try done.
  - destruct H as (Hend & Hraw & Hle). subst raw.
    repeat split; intros; destruct_and?; simplify_eq; congruence || lia.
  - repeat split; intros; destruct_and?; simplify_eq; congruence || lia.
  - destruct H as (Hend & Hle).
    repeat split; intros; destruct_and?; simplify_eq; congruence || lia.
Qed.
(** ** Forwarding, on every path *)

Section ForwardingPaths.
Context {W : Type} {host : Host W}.
Implicit Types (st : State W) (lead : Lead).

Lemma ok_true response : ok response = true ↔ 200 ≤ status response ≤ 299.
Proof. unfold ok. rewrite andb_true_iff, !Z.leb_le. done. Qed.

Lemma ok_false response : ok response = false ↔ ¬ (200 ≤ status response ≤ 299).
Proof. rewrite <- ok_true. by destruct (ok response). Qed.

Lemma nonempty_true_inv (s : jsstring) : nonempty s = true → s ≠ [].
Proof. by destruct s. Qed.

(** The paths of one forwarding: how it ends, what it has sent by then
    and what the CRM answered on the way. *)
Lemma syncLeadToHubSpot_paths lead st (Q : Result SyncResult * State W → Prop) :
  (HUBSPOT_ACCESS_TOKEN = [] → Q (Ok Skipped, st)) →
  (HUBSPOT_ACCESS_TOKEN ≠ [] → name lead = None → Q (Throw TypeError, st)) →
  (HUBSPOT_ACCESS_TOKEN ≠ [] → encodeURIComponent (email lead) = None →
     Q (Throw URIError, st)) →
  (∀ leadName encoded,
     HUBSPOT_ACCESS_TOKEN ≠ [] →
     name lead = Some leadName →
     encodeURIComponent (email lead) = Some encoded →
     let contact :=
       {| p_email := email lead;
          firstname := (splitName leadName).1;
          lastname := if nonempty (splitName leadName).2
                      then Some (splitName leadName).2 else None |} in
     let patch :=
       {| url := HUBSPOT_API_BASE ++ lit "/crm/v3/objects/contacts/" ++ encoded
                   ++ lit "?idProperty=email";
          fetch_method := lit "PATCH";
          authorization := lit "Bearer " ++ HUBSPOT_ACCESS_TOKEN;
          properties := contact |} in
     let post :=
       {| url := HUBSPOT_API_BASE ++ lit "/crm/v3/objects/contacts";
          fetch_method := lit "POST";
          authorization := lit "Bearer " ++ HUBSPOT_ACCESS_TOKEN;
          properties := contact |} in
     let sent w new := mkState (requestBuckets st) w (calls st ++ new) (console st) in
     (∀ reason w,
        fetch patch (world st) = (NetworkError reason, w) →
        Q (Throw (FetchFailed reason), sent w [patch]))
     ∧ (∀ response w,
          fetch patch (world st) = (Responded response, w) → ok response = true →
          Q (Ok (Synced "updated"), sent w [patch]))
     ∧ (∀ response w,
          fetch patch (world st) = (Responded response, w) → ok response = false →
          status response ≠ 404 →
          Q (Throw (HubSpotFailed "update" (status response)
                      (getHubSpotErrorMessage response)), sent w [patch]))
     ∧ (∀ response w reason w',
          fetch patch (world st) = (Responded response, w) → status response = 404 →
          fetch post w = (NetworkError reason, w') →
          Q (Throw (FetchFailed reason), sent w' [patch; post]))
     ∧ (∀ response w response' w',
          fetch patch (world st) = (Responded response, w) → status response = 404 →
          fetch post w = (Responded response', w') → ok response' = true →
          Q (Ok (Synced "created"), sent w' [patch; post]))
     ∧ (∀ response w response' w',
          fetch patch (world st) = (Responded response, w) → status response = 404 →
          fetch post w = (Responded response', w') → ok response' = false →
          Q (Throw (HubSpotFailed "create" (status response')
                      (getHubSpotErrorMessage response')), sent w' [patch; post]))) →
  Q (syncLeadToHubSpot lead st).
Proof.
  intros Hskip Hname Huri Hcalls.
  unfold syncLeadToHubSpot.
  destruct (nonempty HUBSPOT_ACCESS_TOKEN) eqn:Ht; cbn [negb];
    [|apply Hskip; by destruct HUBSPOT_ACCESS_TOKEN].
  apply nonempty_true_inv in Ht.
  destruct (name lead) as [leadName|] eqn:En; [|by apply Hname].
  destruct (splitName leadName) as [firstName lastName] eqn:Es.
  destruct (encodeURIComponent (email lead)) as [encoded|] eqn:Ee; [|by apply Huri].
  specialize (Hcalls leadName encoded Ht eq_refl eq_refl). rewrite Es in Hcalls.
  cbn [fst snd] in Hcalls. cbv zeta in Hcalls.
  destruct Hcalls as (H1 & H2 & H3 & H4 & H5 & H6).
  unfold callHubSpot, do_fetch, bind, ret, throw.
  rewrite (nonempty_true _ Ht). cbn [negb].
  destruct (fetch _ (world st)) as [[r1|reason1] w1] eqn:E1; [|by apply H1].
  destruct (ok r1) eqn:Hok1; [by eapply H2|].
  destruct (Z.eqb_spec (status r1) 404) as [H404|H404]; cbn [negb]; [|by eapply H3].
  cbn [world requestBuckets calls console].
  rewrite <- app_assoc. cbn [app].
  destruct (fetch _ w1) as [[r2|reason2] w2] eqn:E2; [|by eapply H4].
  destruct (ok r2) eqn:Hok2; [by eapply H5 | by eapply H6].
Qed.

End ForwardingPaths.

(** The calls one forwarding adds, found along each of its paths. *)
Ltac forwarding_paths :=
  lazymatch goal with
  | |- context [syncLeadToHubSpot ?lead ?st] =>
      pattern (syncLeadToHubSpot lead st);
      apply syncLeadToHubSpot_paths;
      [ intros ? | intros ? ? | intros ? ?
      | intros ? ? ? ? ?; cbv zeta; repeat apply conj; intros ];
      cbn [fst snd calls world console requestBuckets fetch_method url authorization
           properties p_email] in *
  end.

Ltac answered_by :=
  eexists _, _, _;
  split; [first [reflexivity | exact (app_assoc _ [_] [_])]|];
  split; [reflexivity|]; eassumption.

Ltac added_calls :=
  first [ exists []; split; [by rewrite app_nil_r|]
        | eexists [_]; split; [reflexivity|]
        | eexists [_; _]; split; [reflexivity|] ].

(** X5.  Whatever the CRM answers, forwarding one lead leaves the rate
    limiter's map and the console as they are and adds to the calls made
    either nothing, or one update, or one update followed by one create.
    Every call it adds goes to the configured base URL, carries the bearer
    token, which is then not empty, and the lead's address, and the create
    sends the same properties as the update. *)
Theorem forwarding_effects {W : Type} {host : Host W} (lead : Lead) (st : State W) :
  let out := syncLeadToHubSpot lead st in
  requestBuckets out.2 = requestBuckets st
  ∧ console out.2 = console st
  ∧ ∃ new, calls out.2 = calls st ++ new
           ∧ forwardingShape new
           ∧ (∀ call, call ∈ new →
                HUBSPOT_ACCESS_TOKEN ≠ []
                ∧ authorization call = lit "Bearer " ++ HUBSPOT_ACCESS_TOKEN
                ∧ HUBSPOT_API_BASE `prefix_of` url call
                ∧ p_email (properties call) = email lead)
           ∧ (∀ call1 call2, call1 ∈ new → call2 ∈ new →
                properties call1 = properties call2).
Proof.
  cbv zeta. forwarding_paths.
  all: split; [reflexivity|]; split; [reflexivity|].
  all: added_calls.
  all: split; [unfold forwardingShape; cbn [List.map fetch_method]; auto|].
  all: try assert (HUBSPOT_ACCESS_TOKEN ≠ [])
         by (intros Ht;
             match goal with
             | H : negb (nonempty _) = false |- _ => rewrite Ht in H; discriminate H
             end).
  all: split; [intros call Hcall | intros call1 call2 Hcall1 Hcall2].
  all: repeat match goal with
         | H : _ ∈ [] |- _ => by apply elem_of_nil in H
         | H : _ ∈ _ :: _ |- _ => apply elem_of_cons in H as [->|H]
         end; cbn [authorization url properties p_email].
  all: try reflexivity.
  all: repeat split; try done; by eexists.
Qed.

(** X6.  How a forwarding ends tells what happened.  It reports skipped only
    when no token is configured, and then nothing was sent.  It reports
    updated or created only after the CRM answered the last call, the
    update or the create, with a status from 200 to 299.  It throws the
    HubSpot error of a stage only after an answer outside that range to the
    call of that stage, never for a 404 to the update, and the error carries
    that status and what [getHubSpotErrorMessage] made of the answer.  A
    network failure surfaces as it is.  Without a name, or with an address
    that cannot be encoded, it throws before anything is sent. *)
Theorem forwarding_outcomes {W : Type} {host : Host W} (lead : Lead) (st : State W) :
  let out := syncLeadToHubSpot lead st in
  let answered (method : jsstring) (answer : FetchResult) :=
    ∃ earlier last w,
      calls out.2 = earlier ++ [last] ∧ fetch_method last = method
      ∧ fetch last w = (answer, world out.2) in
  match out.1 with
  | Ok Skipped => HUBSPOT_ACCESS_TOKEN = [] ∧ out.2 = st
  | Ok (Synced action) =>
      ∃ response, 200 ≤ status response ≤ 299
        ∧ (action = "updated" ∧ answered (lit "PATCH") (Responded response)
           ∨ action = "created" ∧ answered (lit "POST") (Responded response))
  | Throw TypeError => name lead = None ∧ out.2 = st
  | Throw URIError => encodeURIComponent (email lead) = None ∧ out.2 = st
  | Throw (FetchFailed reason) =>
      answered (lit "PATCH") (NetworkError reason)
      ∨ answered (lit "POST") (NetworkError reason)
  | Throw (HubSpotFailed stage code detail) =>
      ∃ response, ¬ (200 ≤ status response ≤ 299)
        ∧ code = status response ∧ detail = getHubSpotErrorMessage response
        ∧ (stage = "update" ∧ status response ≠ 404
             ∧ answered (lit "PATCH") (Responded response)
           ∨ stage = "create" ∧ answered (lit "POST") (Responded response))
  | Throw _ => False
  end.
Proof.
  cbv zeta. forwarding_paths.
  all: try done.
  all: try (split; [assumption | reflexivity]).
  all: try (first [left; answered_by | right; answered_by]).
  all: try (eexists; split; [apply ok_true; eassumption|];
            first [ left; split; [reflexivity|]; answered_by
                  | right; split; [reflexivity|]; answered_by ]).
  all: eexists; split; [apply ok_false; eassumption|];
       split; [reflexivity|]; split; [reflexivity|].
  all: first [ left; split; [reflexivity|]; split; [|answered_by]
             | right; split; [reflexivity|]; answered_by ].
  all: assumption.
Qed.
(** ** Every path of a handler, with the state *)

Section Paths.
Context {W : Type} {host : Host W}.
Implicit Types (st : State W).

Lemma wp_ret {A} (a : A) st (Q : Result A → State W → Prop) :
  Q (Ok a) st → wp (ret a) st Q.
Proof. done. Qed.

Lemma wp_bind {A B} (c : M W A) (k : A → M W B) st (Q : Result B → State W → Prop) :
  wp c st (λ r st', match r with Ok a => wp (k a) st' Q | Throw e => Q (Throw e) st' end) →
  wp (bind c k) st Q.
Proof. unfold wp, bind. by destruct (c st) as [[a|e] st']. Qed.

Lemma wp_try_catch {A} (c : M W A) (h : JsError → M W A) st
    (Q : Result A → State W → Prop) :
  wp c st (λ r st', match r with Ok a => Q (Ok a) st' | Throw e => wp (h e) st' Q end) →
  wp (try_catch c h) st Q.
Proof. unfold wp, try_catch. by destruct (c st) as [[a|e] st']. Qed.

Lemma wp_rateLimit ip st (Q : Result bool → State W → Prop) :
  Q (Ok (isRateLimited (nextClock st) ip (requestBuckets st)).1)
    (mkState (isRateLimited (nextClock st) ip (requestBuckets st)).2
       (Date_now (world st)).2 (calls st) (console st)) →
  wp (rateLimit ip) st Q.
Proof. unfold wp. by rewrite rateLimit_run. Qed.

Lemma wp_isoNow st (Q : Result jsstring → State W → Prop) :
  (∀ st', sameModule st st' → Q (Ok (toISOString (nextClock st))) st') →
  wp isoNow st Q.
Proof. intros HQ. unfold wp. destruct (isoNow_run st) as (st' & -> & S). by apply HQ. Qed.

Lemma wp_log entry st (Q : Result unit → State W → Prop) :
  Q (Ok tt) (mkState (requestBuckets st) (world st) (calls st) (console st ++ [entry])) →
  wp (log entry) st Q.
Proof. done. Qed.

Lemma wp_trimmedString parsed key (fallback : M W jsstring) d st
    (Q : Result jsstring → State W → Prop) :
  parsed ≠ JNull →
  (∃ st', fallback st = (Ok d, st') ∧ sameModule st st') →
  (∀ st', sameModule st st' → Q (Ok (default d (stringField parsed key))) st') →
  wp (trimmedString parsed key fallback) st Q.
Proof.
  intros Hp Hf HQ. unfold wp.
  destruct (trimmedString_ok parsed key fallback d st Hp Hf) as (st' & -> & S).
  by apply HQ.
Qed.

Lemma wp_trimmedString_null key (fallback : M W jsstring) st
    (Q : Result jsstring → State W → Prop) :
  Q (Throw TypeError) st → wp (trimmedString JNull key fallback) st Q.
Proof. done. Qed.

(** What a forwarding leaves alone and what it may add. *)
Lemma wp_syncLeadToHubSpot lead st (Q : Result SyncResult → State W → Prop) :
  (∀ r st', requestBuckets st' = requestBuckets st → console st' = console st →
            (∃ new, calls st' = calls st ++ new ∧ forwardingShape new) → Q r st') →
  wp (syncLeadToHubSpot lead) st Q.
Proof.
  intros HQ. unfold wp. forwarding_paths.
  all: apply HQ; [reflexivity | reflexivity |].
  all: added_calls; unfold forwardingShape; cbn [List.map fetch_method]; auto.
Qed.

Lemma null_or_not (parsed : JsValue) : {parsed = JNull} + {parsed ≠ JNull}.
Proof. destruct parsed; (by left) || (by right). Qed.

End Paths.

(** One step of a handler, keeping what was decided on the way. *)
Ltac wp_step :=
  cbv beta iota zeta;
  lazymatch goal with
  | |- wp (if negb ?b then _ else _) _ _ =>
      let E := fresh "E" in destruct b eqn:E; cbn [negb]
  | |- wp (if ?b then _ else _) _ _ =>
      let E := fresh "E" in destruct b eqn:E
  | |- wp (match ?x with _ => _ end) _ _ =>
      let E := fresh "E" in destruct x eqn:E
  | |- wp (bind _ _) _ _ => apply wp_bind
  | |- wp (try_catch _ _) _ _ => apply wp_try_catch
  | |- wp (ret _) _ _ => apply wp_ret
  | |- wp (rateLimit _) _ _ => apply wp_rateLimit
  | |- wp isoNow _ _ => apply wp_isoNow; intros ? ?
  | |- wp (log _) _ _ => apply wp_log
  | |- wp (trimmedString JNull _ _) _ _ => apply wp_trimmedString_null
  | |- wp (trimmedString _ _ _) _ _ =>
      eapply wp_trimmedString;
      [eassumption | first [apply ret_ok | apply isoNow_run] | intros ? ?]
  | |- wp (syncLeadToHubSpot _) _ _ =>
      apply wp_syncLeadToHubSpot; intros [[|?]|?] ? ? ? (? & ? & ?)
  end.

(** The parsed body is [null] or it is not. *)
Ltac wp_parsed :=
  lazymatch goal with
  | E : parseRawBody _ = Some ?parsed |- wp (bind (trimmedString ?parsed _ _) _) _ _ =>
      lazymatch goal with
      | _ : parsed ≠ JNull |- _ => fail
      | _ => idtac
      end;
      let Hp := fresh "Hp" in
      destruct (null_or_not parsed) as [Hp|Hp]; [subst parsed|]
  end.

Ltac wp_run := repeat first [wp_parsed | wp_step].

(** What the steps left untouched, spelled out. *)
Ltac wp_facts :=
  repeat match goal with
    | S : sameModule _ _ |- _ =>
        let Sb := fresh "Sb" in
        let Sc := fresh "Sc" in
        let Sl := fresh "Sl" in
        destruct S as (Sb & Sc & Sl)
    end;
  cbn [requestBuckets calls console world] in *.
(** ** The handlers, on every path *)

Lemma nonempty_false (s : jsstring) : nonempty s = false → s = [].
Proof. by destruct s. Qed.

(** What was decided on the way, as propositions. *)
Ltac path_facts :=
  repeat match goal with
    | E : bool_decide _ = true |- _ => apply bool_decide_eq_true in E
    | E : bool_decide _ = false |- _ => apply bool_decide_eq_false in E
    | E : (_ >? _) = true |- _ => rewrite Z.gtb_ltb in E; apply Z.ltb_lt in E
    | E : (_ >? _) = false |- _ => rewrite Z.gtb_ltb in E; apply Z.ltb_ge in E
    | E : (_ <? _) = true |- _ => apply Z.ltb_lt in E
    | E : (_ <? _) = false |- _ => apply Z.ltb_ge in E
    | E : nonempty _ = false |- _ => apply nonempty_false in E
    end.

(** A leaf at which nothing was logged and nothing was sent. *)
Ltac quiet_leaf := wp_facts; split; congruence.

(** A leaf past the validation. *)
Ltac valid_leaf :=
  path_facts;
  eexists; split;
  [ repeat split; first [eassumption | lia | by eexists; split; eassumption]
  | repeat split; first [eassumption | lia] ].

(** X7.  Whatever the request and whatever the CRM answers, a handler writes
    to the console or calls the CRM only for a POST that was within the size
    limit, passed the rate limiter and carried a body with an empty honeypot
    field, a name of two code units or more where a name is collected, and
    an address the pattern accepts.  On every other path the console and the
    calls are as they were.  The two files without forwarding never call
    the CRM at all. *)
Theorem nothing_logged_or_sent_unless_valid {W : Type} {host : Host W} (st : State W) :
  (∀ event,
     wp (Netlify.handler event) st (λ _ st',
       (calls st' = calls st ∧ console st' = console st)
       ∨ ∃ parsed, Netlify.accepted event st parsed ∧ validLead parsed))
  ∧ (∀ req,
       wp (ServerHubSpot.handlePromoLead req) st (λ _ st',
         (calls st' = calls st ∧ console st' = console st)
         ∨ ∃ parsed, Server.accepted req st parsed ∧ validLead parsed))
  ∧ (∀ req,
       wp (Server.handlePromoLead req) st (λ _ st',
         calls st' = calls st
         ∧ (console st' = console st
            ∨ ∃ parsed, Server.accepted req st parsed ∧ validLead parsed)))
  ∧ (∀ event,
       wp (NetlifyPlain.handler event) st (λ _ st',
         calls st' = calls st
         ∧ (console st' = console st
            ∨ ∃ parsed,
                Netlify.accepted event st parsed
                ∧ default [] (stringField parsed "company") = []
                ∧ test emailRegex (default [] (stringField parsed "email")) = true))).
Proof.
  split; [|split; [|split]].
  - intros event. unfold Netlify.handler. wp_run.
    all: first [left; quiet_leaf | right; valid_leaf].
  - intros req. unfold ServerHubSpot.handlePromoLead. wp_run.
    all: first [left; quiet_leaf | right; valid_leaf].
  - intros req. unfold Server.handlePromoLead. wp_run.
    all: split; [wp_facts; congruence|].
    all: first [left; wp_facts; congruence | right; valid_leaf].
  - intros event. unfold NetlifyPlain.handler. wp_run.
    all: split; [wp_facts; congruence|].
    all: first [left; wp_facts; congruence | right; valid_leaf].
Qed.

Lemma POST_neq_OPTIONS : lit "POST" ≠ lit "OPTIONS".
Proof. intros H. vm_compute in H. discriminate H. Qed.

(** A leaf that an accepted request with the given body cannot reach. *)
Ltac unreachable_leaf Hacc :=
  path_facts; pose proof POST_neq_OPTIONS;
  first [ destruct Hacc as (? & ? & ? & ? & ?) | destruct Hacc as (? & ? & ? & ?) ];
  first [congruence | lia].

Ltac accepted_leaf :=
  path_facts;
  repeat split; first [eassumption | lia | by eexists; split; eassumption].

Ltac throw_leaf :=
  let He := fresh "He" in
  let Hacc := fresh "Hacc" in
  intros ?; split;
  [ first [ discriminate | intros [= <-]; split; [reflexivity | accepted_leaf] ]
  | intros [He Hacc]; first [ by subst | unreachable_leaf Hacc ] ].

(** X8.  A handler throws in one case only: the request is a POST within
    the size limit that passed the rate limiter and its body is the JSON
    text [null].  The error is then the [TypeError] of the first property
    read, and the request has used one slot of the rate limiter.  Nothing
    the CRM does makes a handler throw.  The listener of the two servers
    answers that case with 500. *)
Theorem handler_throws_only_on_null {W : Type} {host : Host W} (st : State W) :
  (∀ event,
     wp (Netlify.handler event) st (λ r _,
       ∀ e, r = Throw e ↔ e = TypeError ∧ Netlify.accepted event st JNull))
  ∧ (∀ event,
       wp (NetlifyPlain.handler event) st (λ r _,
         ∀ e, r = Throw e ↔ e = TypeError ∧ Netlify.accepted event st JNull))
  ∧ (∀ req,
       wp (Server.handlePromoLead req) st (λ r _,
         ∀ e, r = Throw e ↔ e = TypeError ∧ Server.accepted req st JNull))
  ∧ (∀ req,
       wp (ServerHubSpot.handlePromoLead req) st (λ r _,
         ∀ e, r = Throw e ↔ e = TypeError ∧ Server.accepted req st JNull))
  ∧ (∀ req,
       Server.accepted req st JNull →
       (Server.servePromoLead req st).1 = Ok (json 500 (failure "Internal server error.") ∅)
       ∧ (ServerHubSpot.servePromoLead req st).1
         = Ok (json 500 (failure "Internal server error.") ∅)).
Proof.
  split; [|split; [|split; [|split]]].
  - intros event. unfold Netlify.handler. wp_run. all: throw_leaf.
  - intros event. unfold NetlifyPlain.handler. wp_run. all: throw_leaf.
  - intros req. unfold Server.handlePromoLead. wp_run. all: throw_leaf.
  - intros req. unfold ServerHubSpot.handlePromoLead. wp_run. all: throw_leaf.
  - intros req Hacc. split.
    + change (wp (Server.servePromoLead req) st
                (λ r _, r = Ok (json 500 (failure "Internal server error.") ∅))).
      unfold Server.servePromoLead, Server.handlePromoLead. wp_run.
      all: first [reflexivity | unreachable_leaf Hacc].
    + change (wp (ServerHubSpot.servePromoLead req) st
                (λ r _, r = Ok (json 500 (failure "Internal server error.") ∅))).
      unfold ServerHubSpot.servePromoLead, ServerHubSpot.handlePromoLead. wp_run.
      all: first [reflexivity | unreachable_leaf Hacc].
Qed.

(** A leaf, for the map of buckets. *)
Ltac bucket_leaf :=
  wp_facts;
  repeat match goal with
    | E : bool_decide (_ = lit "OPTIONS") = true |- _ =>
        apply bool_decide_eq_true in E; rewrite E;
        change (bool_decide (lit "OPTIONS" = lit "POST")) with false
    | E : _ = true |- _ => rewrite E; clear E
    | E : _ = false |- _ => rewrite E; clear E
    end;
  cbn [andb negb]; congruence.

(** X9.  One request makes at most one check of the rate limiter, under the
    key [getClientIp] gives for it, and nothing else touches the map of
    buckets.  The serverless functions make the check exactly for a POST
    whose body is within the size limit; the servers make it for every POST,
    before the body is read.  So a request with another method never uses a
    slot, a rejected, malformed or invalid POST does, and an oversized one
    does on the servers only. *)
Theorem rate_limiter_checked_once {W : Type} {host : Host W} (st : State W) :
  (∀ event,
     wp (Netlify.handler event) st (λ _ st',
       requestBuckets st'
       = if bool_decide (Netlify.httpMethod event = lit "POST")
            && negb (byteLength (Netlify.rawBodyOf event) >? MAX_BODY_SIZE)
         then (isRateLimited (nextClock st) (Netlify.getClientIp event)
                 (requestBuckets st)).2
         else requestBuckets st))
  ∧ (∀ event,
       wp (NetlifyPlain.handler event) st (λ _ st',
         requestBuckets st'
         = if bool_decide (Netlify.httpMethod event = lit "POST")
              && negb (byteLength (Netlify.rawBodyOf event) >? MAX_BODY_SIZE)
           then (isRateLimited (nextClock st) (Netlify.getClientIp event)
                   (requestBuckets st)).2
           else requestBuckets st))
  ∧ (∀ req,
       wp (Server.handlePromoLead req) st (λ _ st',
         requestBuckets st'
         = if bool_decide (Server.method req = lit "POST")
           then (isRateLimited (nextClock st) (Server.getClientIp req)
                   (requestBuckets st)).2
           else requestBuckets st))
  ∧ (∀ req,
       wp (ServerHubSpot.handlePromoLead req) st (λ _ st',
         requestBuckets st'
         = if bool_decide (Server.method req = lit "POST")
           then (isRateLimited (nextClock st) (Server.getClientIp req)
                   (requestBuckets st)).2
           else requestBuckets st)).
Proof.
  split; [|split; [|split]].
  - intros event. unfold Netlify.handler. wp_run. all: bucket_leaf.
  - intros event. unfold NetlifyPlain.handler. wp_run. all: bucket_leaf.
  - intros req. unfold Server.handlePromoLead. wp_run. all: bucket_leaf.
  - intros req. unfold ServerHubSpot.handlePromoLead. wp_run. all: bucket_leaf.
Qed.


(** The body the server read is the body of the hypothesis. *)
Ltac same_body :=
  try match goal with
    | H1 : Server.parseBody ?r = Ok _, H2 : Server.parseBody ?r = Ok _ |- _ =>
        rewrite H1 in H2; injection H2 as <-
    end;
  simplify_eq.






(** A leaf, for the answer. *)
Ltac answer_leaf :=
  intros ? ?; simplify_eq;
  cbn [statusCode body json]; unfold promoResponses;
  repeat first [apply list_elem_of_here | apply list_elem_of_further].

(** X11.  The status and the body of every answer come from a table of ten
    constants, to which the listener of the servers adds the 500 it gives
    when the handler throws.  No part of the request, of the lead or of
    what the CRM said is ever sent back to the caller. *)
Theorem answers_are_constants {W : Type} {host : Host W} (st : State W) :
  (∀ event,
     wp (Netlify.handler event) st (λ r _,
       ∀ response, r = Ok response →
         (statusCode response, body response) ∈ promoResponses))
  ∧ (∀ event,
       wp (NetlifyPlain.handler event) st (λ r _,
         ∀ response, r = Ok response →
           (statusCode response, body response) ∈ promoResponses))
  ∧ (∀ req,
       wp (Server.servePromoLead req) st (λ r _,
         ∃ response, r = Ok response ∧
           (statusCode response, body response)
           ∈ (500, failure "Internal server error.") :: promoResponses))
  ∧ (∀ req,
       wp (ServerHubSpot.servePromoLead req) st (λ r _,
         ∃ response, r = Ok response ∧
           (statusCode response, body response)
           ∈ (500, failure "Internal server error.") :: promoResponses)).
Proof.
  split; [|split; [|split]].
  - intros event. unfold Netlify.handler. wp_run. all: answer_leaf.
  - intros event. unfold NetlifyPlain.handler. wp_run. all: answer_leaf.
  - intros req. unfold Server.servePromoLead, Server.handlePromoLead. wp_run.
    all: eexists; split; [reflexivity|].
    all: cbn [statusCode body json]; unfold promoResponses;
      repeat first [apply list_elem_of_here | apply list_elem_of_further].
  - intros req. unfold ServerHubSpot.servePromoLead, ServerHubSpot.handlePromoLead. wp_run.
    all: eexists; split; [reflexivity|].
    all: cbn [statusCode body json]; unfold promoResponses;
      repeat first [apply list_elem_of_here | apply list_elem_of_further].
Qed.



(** ** A body that is not an object *)

Lemma stringField_non_object (parsed : JsValue) (key : string) :
  (∀ fields, parsed ≠ JObj fields) → stringField parsed key = None.
Proof.
  intros Hno. unfold stringField, field. destruct parsed; try done.
  by destruct (Hno fields).
Qed.

(** A leaf, for a body without fields. *)
Ltac no_fields_leaf Hacc Hno :=
  first
    [ unreachable_leaf Hacc
    | first [ destruct Hacc as (? & ? & ? & ? & ?) | destruct Hacc as (? & ? & ? & ?) ];
      same_body;
      repeat match goal with
        | E : context [stringField _ _] |- _ =>
            rewrite (stringField_non_object _ _ Hno) in E
        end;
      cbn [default from_option id nonempty length Z.of_nat Z.ltb Z.compare] in *;
      first [ discriminate
            | split; [reflexivity | quiet_leaf] ] ].

(** X20.  A body that is valid JSON but neither an object nor [null], that
    is an array, a string, a number or a boolean, is handled as the empty
    object is: every field read falls back to its default, so the handlers
    that collect a name answer 400 with the name message and the e-mail-only
    function answers 400 with the address message, and nothing is logged or
    sent. *)
Theorem non_object_body_is_empty_object {W : Type} {host : Host W}
    (event : Netlify.Event) (req : Server.IncomingMessage) (st : State W)
    (parsed : JsValue) :
  (∀ fields, parsed ≠ JObj fields) →
  parsed ≠ JNull →
  let refused message (r : Result Response) (st' : State W) :=
    r = Ok (json 400 (failure message) ∅)
    ∧ calls st' = calls st ∧ console st' = console st in
  (Netlify.accepted event st parsed →
     wp (Netlify.handler event) st (refused "Please send your name.")
     ∧ wp (NetlifyPlain.handler event) st (refused "Please send a valid email address."))
  ∧ (Server.accepted req st parsed →
       wp (Server.handlePromoLead req) st (refused "Please send your name.")
       ∧ wp (ServerHubSpot.handlePromoLead req) st (refused "Please send your name.")).
Proof.
  intros Hno Hnull refused. subst refused.
  split; intros Hacc; split.
  - unfold Netlify.handler. wp_run. all: no_fields_leaf Hacc Hno.
  - unfold NetlifyPlain.handler. wp_run. all: no_fields_leaf Hacc Hno.
  - unfold Server.handlePromoLead. wp_run. all: no_fields_leaf Hacc Hno.
  - unfold ServerHubSpot.handlePromoLead. wp_run. all: no_fields_leaf Hacc Hno.
Qed.

Lemma non_object_body_is_empty_object_witness :
  (Netlify.handler (host := arrayHost) (sampleEvent (lit "[]")) (sampleState ∅)).1
  = Ok (json 400 (failure "Please send your name.") ∅).
Proof.
  assert (∀ fields, JArr [] ≠ JObj fields) as Hno by discriminate.
  assert (JArr [] ≠ JNull) as Hnull by discriminate.
  pose proof (non_object_body_is_empty_object (host := arrayHost)
                (sampleEvent (lit "[]")) (sampleRequest [lit "[]"]) (sampleState ∅)
                (JArr []) Hno Hnull) as H.
  cbv zeta in H. destruct H as [Hn _].
  assert (Netlify.accepted (host := arrayHost) (sampleEvent (lit "[]")) (sampleState ∅)
            (JArr [])) as Hacc by evaluated.
  specialize (Hn Hacc). destruct Hn as [[Hr _] _]. exact Hr.
Defined.

(** ** Requests one after the other *)

Section ServingFacts.
Context {W : Type} {host : Host W}.
Implicit Types (st : State W) (event : Netlify.Event).

(** A leaf, for the check of one request. *)
Ltac check_leaf :=
  unfold reachesLimiter, tooMany;
  split;
  [ bucket_leaf
  | repeat match goal with
      | E : bool_decide (_ = lit "OPTIONS") = true |- _ =>
          apply bool_decide_eq_true in E; rewrite E;
          change (bool_decide (lit "OPTIONS" = lit "POST")) with false
      | E : bool_decide _ = _ |- _ => rewrite E; clear E
      | E : (_ >? _) = _ |- _ => rewrite E; clear E
      end;
    cbn [andb negb]; intros ?;
    first [ discriminate
          | split; intros; first [reflexivity | assumption | discriminate | congruence] ] ].

Lemma handler_check event st :
  wp (Netlify.handler event) st (λ r st',
    requestBuckets st'
    = (if reachesLimiter event
       then (isRateLimited (nextClock st) (Netlify.getClientIp event) (requestBuckets st)).2
       else requestBuckets st)
    ∧ (reachesLimiter event = true →
       (isRateLimited (nextClock st) (Netlify.getClientIp event) (requestBuckets st)).1 = true
       ↔ r = tooMany)).
Proof.
  unfold Netlify.handler. wp_run. all: check_leaf.
Qed.

Lemma serve_cons event events st :
  serve (event :: events) st
  = ((event, (Netlify.handler event st).1) :: (serve events (Netlify.handler event st).2).1,
     (serve events (Netlify.handler event st).2).2).
Proof.
  cbn [serve]. destruct (Netlify.handler event st) as [r st']. cbn [fst snd].
  by destruct (serve events st').
Qed.

End ServingFacts.

(** X13.  Over any sequence of requests handled by one instance, the map of
    buckets ends as the rate limiter leaves it after one check per POST
    within the size limit, in the order of the requests and each under the
    key of its caller, and those requests that the checks reject are exactly
    the ones answered 429.  What is proved of a run of checks thus holds of
    the function as it serves requests. *)
Theorem serve_is_run_checks {W : Type} {host : Host W}
    (events : list Netlify.Event) (st : State W) :
  let passed := filter (λ er, reachesLimiter er.1 = true) (serve events st).1 in
  ∃ times,
    length times = length passed
    ∧ let checks := zip times (Netlify.getClientIp <$> passed.*1) in
      requestBuckets (serve events st).2 = (run_checks checks (requestBuckets st)).2
      ∧ Forall2 (λ limited r, limited = true ↔ r = tooMany)
          (run_checks checks (requestBuckets st)).1 passed.*2.
Proof.
  cbv zeta. revert st. induction events as [|event events IH]; intros st.
  { exists []. split; [done|]. split; [done | constructor]. }
  rewrite serve_cons. cbn [fst snd].
  pose proof (handler_check event st) as [Hb Hr]. 
  destruct (IH (Netlify.handler event st).2) as (times & Hlen & Hbuckets & Hanswers).
  rewrite filter_cons. cbn [fst].
  destruct (decide (reachesLimiter event = true)) as [Hreach|Hreach].
  - exists (nextClock st :: times). rewrite Hreach in Hb. specialize (Hr Hreach).
    cbn [length fmap list_fmap fst snd zip zip_with].
    split; [by rewrite Hlen|].
    rewrite Hb in Hbuckets, Hanswers.
    split.
    + by rewrite run_checks_cons.
    + cbn [run_checks].
      destruct (isRateLimited (nextClock st) (Netlify.getClientIp event) (requestBuckets st))
        as [limited m'] eqn:Echeck.
      cbn [fst snd] in *.
      destruct (run_checks _ m') as [answers final]. cbn [fst snd] in *.
      by constructor.
  - exists times. apply not_true_is_false in Hreach. rewrite Hreach in Hb.
    rewrite Hb in Hbuckets, Hanswers. done.
Qed.
(** ** Strings: [trim], [split], [join] and the runs of white space *)

Section Strings.
Implicit Types (s t : jsstring) (c sep : N).

Lemma trimStart_spec s :
  ∃ ws, s = ws ++ trimStart s ∧ Forall (λ c, isWhiteSpace c = true) ws.
Proof.
  induction s as [|c s (ws & Hs & Hws)]; [by exists []|].
  simpl. destruct (isWhiteSpace c) eqn:Hc.
  - exists (c :: ws). split; [by rewrite Hs at 1 | by constructor].
  - by exists [].
Qed.

Lemma trimStart_head s c t : trimStart s = c :: t → isWhiteSpace c = false.
Proof.
  induction s as [|d s IH]; [done|]. simpl.
  destruct (isWhiteSpace d) eqn:Hd; [done|]. by intros [= <- _].
Qed.

Lemma trimStart_visible c s : isWhiteSpace c = false → trimStart (c :: s) = c :: s.
Proof. intros Hc. simpl. by rewrite Hc. Qed.

Lemma trimStart_blank s : Forall (λ c, isWhiteSpace c = true) s → trimStart s = [].
Proof. induction 1 as [|c s Hc _ IH]; [done|]. simpl. by rewrite Hc. Qed.

Lemma trimStart_snoc_visible s c :
  isWhiteSpace c = false → ∃ t, trimStart (s ++ [c]) = t ++ [c].
Proof.
  intros Hc. induction s as [|d s (t & IH)]; simpl.
  - rewrite Hc. by exists [].
  - destruct (isWhiteSpace d); [by exists t|]. by exists (d :: s).
Qed.

Lemma trimEnd_spec s :
  ∃ ws, s = trimEnd s ++ ws ∧ Forall (λ c, isWhiteSpace c = true) ws.
Proof.
  unfold trimEnd. destruct (trimStart_spec (rev s)) as (ws & Hs & Hws).
  exists (rev ws). split; [|by apply Forall_rev].
  rewrite <- rev_app_distr, <- Hs. by rewrite rev_involutive.
Qed.

Lemma trimEnd_last s t c : trimEnd s = t ++ [c] → isWhiteSpace c = false.
Proof.
  unfold trimEnd. intros H. apply (f_equal (@rev N)) in H.
  rewrite rev_involutive, rev_app_distr in H. by apply trimStart_head in H.
Qed.

(** A string that starts with a visible code unit keeps it. *)
Lemma trimEnd_head c s : isWhiteSpace c = false → ∃ t, trimEnd (c :: s) = c :: t.
Proof.
  intros Hc. unfold trimEnd. simpl.
  destruct (trimStart_snoc_visible (rev s) c Hc) as (t & ->).
  rewrite rev_app_distr. by exists (rev t).
Qed.

Lemma trimEnd_blank s : Forall (λ c, isWhiteSpace c = true) s → trimEnd s = [].
Proof. intros H. unfold trimEnd. rewrite trimStart_blank; [done | by apply Forall_rev]. Qed.

Lemma trim_spec s :
  ∃ ws1 ws2, s = ws1 ++ trim s ++ ws2
             ∧ Forall (λ c, isWhiteSpace c = true) ws1
             ∧ Forall (λ c, isWhiteSpace c = true) ws2.
Proof.
  destruct (trimStart_spec s) as (ws1 & Hs & H1).
  destruct (trimEnd_spec (trimStart s)) as (ws2 & Ht & H2).
  exists ws1, ws2. unfold trim. by rewrite <- Ht.
Qed.

Lemma trim_elem c s : c ∈ trim s → c ∈ s.
Proof.
  destruct (trim_spec s) as (ws1 & ws2 & Hs & _). intros Hc.
  rewrite Hs, !elem_of_app. auto.
Qed.

Lemma trim_keeps_visible c s : c ∈ s → isWhiteSpace c = false → c ∈ trim s.
Proof.
  destruct (trim_spec s) as (ws1 & ws2 & Hs & H1 & H2). intros Hc Hv.
  rewrite Hs, !elem_of_app in Hc. rewrite Forall_forall in H1, H2.
  destruct Hc as [Hc|[Hc|Hc]]; [|done|].
  - apply H1 in Hc. congruence.
  - apply H2 in Hc. congruence.
Qed.

Lemma trim_head s c t : trim s = c :: t → isWhiteSpace c = false.
Proof.
  unfold trim. destruct (trimStart s) as [|d r] eqn:E; [done|].
  pose proof (trimStart_head _ _ _ E) as Hd.
  destruct (trimEnd_head d r Hd) as (t' & ->). by intros [= <- _].
Qed.

Lemma trim_last s t c : trim s = t ++ [c] → isWhiteSpace c = false.
Proof. apply trimEnd_last. Qed.

Lemma trim_blank s : Forall (λ c, isWhiteSpace c = true) s → trim s = [].
Proof.
  intros H. unfold trim. by rewrite (trimStart_blank _ H).
Qed.

Lemma trim_nil_blank s : trim s = [] → Forall (λ c, isWhiteSpace c = true) s.
Proof.
  intros H. apply Forall_forall. intros c Hc.
  destruct (isWhiteSpace c) eqn:Hv; [done|].
  pose proof (trim_keeps_visible c s Hc Hv) as Hin. rewrite H in Hin.
  by apply elem_of_nil in Hin.
Qed.

(** [split] *)

Lemma split_not_nil sep s : split sep s ≠ [].
Proof. destruct s as [|c s]; [done|]. simpl. by repeat case_match. Qed.

Lemma join_split sep s : join [sep] (split sep s) = s.
Proof.
  induction s as [|c s IH]; [done|]. simpl.
  destruct (N.eqb_spec c sep) as [->|Hne].
  - pose proof (split_not_nil sep s).
    destruct (split sep s) as [|w ws] eqn:E; [done|].
    cbn [join]. cbn [join] in IH. by rewrite IH.
  - destruct (split sep s) as [|w ws] eqn:E; [by destruct (split_not_nil sep s)|].
    destruct ws as [|w' ws]; cbn [join] in *; by rewrite <- IH.
Qed.

Lemma split_first sep first more :
  sep ∉ first → split sep (first ++ sep :: more) = first :: split sep more.
Proof.
  induction first as [|c first IH]; intros Hsep; simpl.
  - by rewrite N.eqb_refl.
  - apply not_elem_of_cons in Hsep as [Hc Hsep].
    destruct (N.eqb_spec c sep) as [->|_]; [done|].
    by rewrite (IH Hsep).
Qed.

Lemma split_only sep first : sep ∉ first → split sep first = [first].
Proof.
  induction first as [|c first IH]; intros Hsep; simpl; [done|].
  apply not_elem_of_cons in Hsep as [Hc Hsep].
  destruct (N.eqb_spec c sep) as [->|_]; [done|].
  by rewrite (IH Hsep).
Qed.

Lemma split_hd_no_sep sep s : sep ∉ hd [] (split sep s).
Proof.
  induction s as [|c s IH]; simpl; [apply not_elem_of_nil|].
  destruct (N.eqb_spec c sep) as [->|Hne]; [apply not_elem_of_nil|].
  destruct (split sep s) as [|w ws]; simpl in *.
  - apply not_elem_of_cons. split; [done | apply not_elem_of_nil].
  - apply not_elem_of_cons. by split.
Qed.

(** The runs of white space *)

Lemma collapse_runs_space b s c :
  c ∈ collapse_runs b s → isWhiteSpace c = true → c = 0x20%N.
Proof.
  revert b. induction s as [|d s IH]; intros b; simpl; [by intros ?%elem_of_nil|].
  destruct (isWhiteSpace d) eqn:Hd.
  - destruct b; [apply IH|]. intros [->|Hc]%elem_of_cons; [done | by eapply IH].
  - intros [->|Hc]%elem_of_cons; [congruence | by eapply IH].
Qed.

Lemma collapse_runs_visible b s c :
  c ∈ s → isWhiteSpace c = false → c ∈ collapse_runs b s.
Proof.
  revert b. induction s as [|d s IH]; intros b; [by intros ?%elem_of_nil|].
  intros [->|Hc]%elem_of_cons Hv; simpl.
  - rewrite Hv. by left.
  - destruct (isWhiteSpace d); [destruct b|]; try right; by apply IH.
Qed.

Lemma collapse_runs_blank b s :
  Forall (λ c, isWhiteSpace c = true) s →
  Forall (λ c, isWhiteSpace c = true) (collapse_runs b s).
Proof.
  intros H. revert b. induction H as [|c s Hc _ IH]; intros b; simpl; [done|].
  rewrite Hc. destruct b; [apply IH|]. constructor; [done | apply IH].
Qed.

End Strings.

(** X14.  The key of the rate limiter is the first entry of the
    [x-forwarded-for] header, trimmed: whatever follows the first comma is
    ignored, and so is the address of the socket.  A header without a comma
    is taken whole when it is not blank.  Requests that differ only in the
    rest of the header, or in the socket they come from, share one bucket,
    and a header that starts with a comma gives the empty key. *)
Theorem getClientIp_first_entry
    (event : Netlify.Event) (req : Server.IncomingMessage) (first more : jsstring) :
  0x2C%N ∉ first →
  (Netlify.ev_headers event !! lit "x-forwarded-for" = Some (first ++ 0x2C%N :: more) →
     Netlify.getClientIp event = trim first)
  ∧ (Server.req_headers req !! lit "x-forwarded-for" = Some (first ++ 0x2C%N :: more) →
       Server.getClientIp req = trim first)
  ∧ (trim first ≠ [] →
       (Netlify.ev_headers event !! lit "x-forwarded-for" = Some first →
          Netlify.getClientIp event = trim first)
       ∧ (Server.req_headers req !! lit "x-forwarded-for" = Some first →
            Server.getClientIp req = trim first)).
Proof.
  intros Hcomma.
  assert (nonempty (trim (first ++ 0x2C%N :: more)) = true) as Hlist.
  { apply nonempty_true. intros Hnil.
    assert (0x2C%N ∈ trim (first ++ 0x2C%N :: more)) as Hin.
    { apply trim_keeps_visible; [|reflexivity].
      apply elem_of_app. right. by left. }
    rewrite Hnil in Hin. by apply elem_of_nil in Hin. }
  split; [|split; [|intros Hvisible; split]].
  - intros Hh. unfold Netlify.getClientIp. rewrite Hh.
    assert (orHeader (Some (first ++ 0x2C%N :: more))
              (Netlify.ev_headers event !! lit "X-Forwarded-For")
            = Some (first ++ 0x2C%N :: more)) as -> by (by destruct first).
    by rewrite Hlist, split_first.
  - intros Hh. unfold Server.getClientIp. rewrite Hh.
    by rewrite Hlist, split_first.
  - intros Hh. unfold Netlify.getClientIp. rewrite Hh.
    assert (orHeader (Some first) (Netlify.ev_headers event !! lit "X-Forwarded-For")
            = Some first) as ->.
    { destruct first; [by rewrite trim_blank in Hvisible | done]. }
    by rewrite (nonempty_true _ Hvisible), split_only.
  - intros Hh. unfold Server.getClientIp. rewrite Hh.
    by rewrite (nonempty_true _ Hvisible), split_only.
Qed.

Lemma getClientIp_first_entry_witness :
  Netlify.getClientIp proxiedEvent = trim (lit " 203.0.113.7 ").
Proof.
  assert (0x2C%N ∉ lit " 203.0.113.7 ") as Hcomma
    by (apply (bool_decide_unpack _); vm_compute; exact I).
  destruct (getClientIp_first_entry proxiedEvent (sampleRequest [])
              (lit " 203.0.113.7 ") (lit " 10.0.0.1") Hcomma) as (Hn & _).
  apply Hn. vm_compute. reflexivity.
Defined.

(** X15.  [splitName] puts the first word of the name in [firstName] and
    the rest in [lastName]: [firstName] holds no white space, the two put
    together with one space between them are the name with its runs of
    white space collapsed and its ends trimmed, and [firstName] is empty
    only for a name without a visible code unit. *)
Theorem splitName_parts (name : jsstring) :
  let normalized := trim (collapse_runs false name) in
  let '(firstName, lastName) := splitName name in
  Forall (λ c, isWhiteSpace c = false) firstName
  ∧ normalized = firstName ++ (if nonempty lastName then 0x20%N :: lastName else [])
  ∧ (firstName = [] ↔ Forall (λ c, isWhiteSpace c = true) name).
Proof.
  cbv zeta. unfold splitName.
  set (normalized := trim (collapse_runs false name)).
  assert (normalized = [] ↔ Forall (λ c, isWhiteSpace c = true) name) as Hblank.
  { split.
    - intros Hn. apply Forall_forall. intros c Hc.
      destruct (isWhiteSpace c) eqn:Hv; [done|].
      assert (c ∈ normalized) as Hin
        by (by apply trim_keeps_visible; [apply collapse_runs_visible|]).
      rewrite Hn in Hin. by apply elem_of_nil in Hin.
    - intros Hall. by apply trim_blank, collapse_runs_blank. }
  destruct normalized as [|c0 rest0] eqn:En.
  { cbn [nonempty negb]. split; [constructor|]. split; [done|].
    split; [intros _; by apply Hblank | done]. }
  rewrite <- En. assert (nonempty normalized = true) as -> by (by rewrite En).
  cbn [negb].
  pose proof (join_split 0x20%N normalized) as Hjoin.
  pose proof (split_hd_no_sep 0x20%N normalized) as Hhd.
  destruct (split 0x20%N normalized) as [|firstName words] eqn:Es;
    [by destruct (split_not_nil 0x20%N normalized)|].
  cbn [hd] in Hhd.
  assert (normalized = firstName ++ (if nonempty (join (lit " ") words)
                                     then 0x20%N :: join (lit " ") words else [])) as Hparts.
  { destruct words as [|w ws]; [cbn [join] in *; by rewrite app_nil_r|].
    change (lit " ") with [0x20%N].
    assert (join [0x20%N] (firstName :: w :: ws)
            = firstName ++ 0x20%N :: join [0x20%N] (w :: ws)) as Hj by reflexivity.
    rewrite Hj in Hjoin.
    destruct (join [0x20%N] (w :: ws)) as [|d l] eqn:El; [|done].
    exfalso. subst normalized. symmetry in Hjoin.
    change (firstName ++ [0x20%N]) with (firstName ++ [0x20%N]) in Hjoin.
    by apply trim_last in Hjoin. }
  split; [|split; [exact Hparts|]].
  - apply Forall_forall. intros c Hc.
    destruct (isWhiteSpace c) eqn:Hv; [|done]. exfalso.
    assert (c ∈ normalized) as Hin by (rewrite Hparts; apply elem_of_app; by left).
    subst normalized. apply trim_elem in Hin.
    apply collapse_runs_space in Hin; [|done]. by subst c.
  - split.
    + intros ->. exfalso. rewrite En in Hparts. simpl in Hparts.
      destruct (nonempty (join (lit " ") words)); [|done].
      injection Hparts as -> _.
      assert (isWhiteSpace 0x20%N = false) as Hno; [|done].
      eapply (trim_head (collapse_runs false name)). fold normalized. by rewrite En.
    + intros Hall. apply Hblank in Hall. congruence.
Qed.

(** ** The address in the path of the update *)

Section Encoding.

Lemma hexDigit_unreserved (n : N) : (n < 16)%N → uriUnreserved (hexDigit n) = true.
Proof.
  intros H.
  assert (n = 0 ∨ n = 1 ∨ n = 2 ∨ n = 3 ∨ n = 4 ∨ n = 5 ∨ n = 6 ∨ n = 7 ∨ n = 8
          ∨ n = 9 ∨ n = 10 ∨ n = 11 ∨ n = 12 ∨ n = 13 ∨ n = 14 ∨ n = 15)%N as Hn by lia.
  repeat destruct Hn as [->|Hn]; try reflexivity. by subst.
Qed.

Lemma percent_safe (octet : N) :
  (octet < 256)%N → Forall (λ c, uriUnreserved c = true ∨ c = 0x25%N) (percent octet).
Proof.
  intros H. unfold percent.
  apply Forall_cons_2; [by right|].
  apply Forall_cons_2;
    [left; apply hexDigit_unreserved; apply N.Div0.div_lt_upper_bound; lia|].
  apply Forall_cons_2; [left; apply hexDigit_unreserved; apply N.mod_lt; lia|].
  apply Forall_nil_2.
Qed.

Lemma utf8_octets (v : N) : (v < 0x110000)%N → Forall (λ octet, (octet < 256)%N) (utf8 v).
Proof.
  intros H. unfold utf8.
  destruct (N.ltb_spec v 0x80); [repeat (apply Forall_cons_2; [lia|]); apply Forall_nil_2|].
  destruct (N.ltb_spec v 0x800).
  { assert (v / 0x40 < 0x20)%N by (apply N.Div0.div_lt_upper_bound; lia).
    assert (v mod 0x40 < 0x40)%N by (apply N.mod_lt; lia).
    repeat (apply Forall_cons_2; [lia|]); apply Forall_nil_2. }
  destruct (N.ltb_spec v 0x10000).
  { assert (v / 0x1000 < 0x10)%N by (apply N.Div0.div_lt_upper_bound; lia).
    assert ((v / 0x40) mod 0x40 < 0x40)%N by (apply N.mod_lt; lia).
    assert (v mod 0x40 < 0x40)%N by (apply N.mod_lt; lia).
    repeat (apply Forall_cons_2; [lia|]); apply Forall_nil_2. }
  assert (v / 0x40000 < 0x5)%N by (apply N.Div0.div_lt_upper_bound; lia).
  assert ((v / 0x1000) mod 0x40 < 0x40)%N by (apply N.mod_lt; lia).
  assert ((v / 0x40) mod 0x40 < 0x40)%N by (apply N.mod_lt; lia).
  assert (v mod 0x40 < 0x40)%N by (apply N.mod_lt; lia).
  repeat (apply Forall_cons_2; [lia|]); apply Forall_nil_2.
Qed.

Lemma escape_safe (v : N) :
  (v < 0x110000)%N →
  Forall (λ c, uriUnreserved c = true ∨ c = 0x25%N) (concat (List.map percent (utf8 v))).
Proof.
  intros H. apply Forall_concat, List.Forall_map.
  eapply Forall_impl; [apply (utf8_octets v H)|].
  intros octet Ho. by apply percent_safe.
Qed.

(** What [encodeURIComponent] returns holds unreserved code units and
    percent signs only. *)
Lemma encodeURIComponent_alphabet (s encoded : jsstring) :
  Forall (λ c, (c < 0x10000)%N) s →
  encodeURIComponent s = Some encoded →
  Forall (λ c, uriUnreserved c = true ∨ c = 0x25%N) encoded.
Proof.
  remember (length s) as n eqn:Hn. revert s encoded Hn.
  induction n as [n IH] using lt_wf_ind. intros [|c rest] encoded Hn Hs.
  { by intros [= <-]. }
  apply Forall_cons in Hs as [Hc Hrest]. cbn [encodeURIComponent].
  destruct (uriUnreserved c) eqn:Hu.
  { destruct (encodeURIComponent rest) as [t|] eqn:Et; [|done]. intros [= <-].
    constructor; [by left|].
    eapply (IH (length rest)); [simpl in Hn; lia | done | done | done]. }
  destruct (isLowSurrogate c) eqn:Hl; [done|].
  destruct (isHighSurrogate c) eqn:Hh.
  - destruct rest as [|d rest']; [done|].
    destruct (isLowSurrogate d) eqn:Hd; [|done].
    apply Forall_cons in Hrest as [_ Hrest'].
    destruct (encodeURIComponent rest') as [t|] eqn:Et; [|done]. intros [= <-].
    apply Forall_app. split.
    + apply escape_safe. unfold isHighSurrogate, isLowSurrogate in Hh, Hd.
      apply andb_true_iff in Hh as [H1 H2]. apply andb_true_iff in Hd as [H3 H4].
      apply N.leb_le in H1, H2, H3, H4. lia.
    + eapply (IH (length rest')); [simpl in Hn; lia | done | done | done].
  - destruct (encodeURIComponent rest) as [t|] eqn:Et; [|done]. intros [= <-].
    apply Forall_app. split.
    + apply escape_safe. lia.
    + eapply (IH (length rest)); [simpl in Hn; lia | done | done | done].
Qed.

(** None of them is a slash, a question mark, a hash sign or an
    ampersand. *)
Lemma safe_not_delimiter (c : N) :
  uriUnreserved c = true ∨ c = 0x25%N → c ∉ [0x2F; 0x3F; 0x23; 0x26]%N.
Proof.
  intros Hsafe Hin.
  repeat (apply elem_of_cons in Hin as [Heq|Hin];
          [subst c; destruct Hsafe as [H|H]; [by vm_compute in H | discriminate H]|]).
  by apply elem_of_nil in Hin.
Qed.

End Encoding.

(** X16.  The URLs of the calls.  A create goes to the fixed path of the
    contacts.  An update goes to that path followed by a slash, the encoded
    address and the fixed query, and when the address is made of 16-bit code
    units the encoded part holds nothing but unreserved code units and
    percent signs: no slash, question mark, hash sign or ampersand of the
    address reaches the URL, so an address cannot change the path or the
    query of the call. *)
Theorem forwarding_urls {W : Type} {host : Host W} (lead : Lead) (st : State W) :
  Forall (λ c, (c < 0x10000)%N) (email lead) →
  ∃ new,
    calls (syncLeadToHubSpot lead st).2 = calls st ++ new
    ∧ ∀ call, call ∈ new →
        (fetch_method call = lit "POST"
         ∧ url call = HUBSPOT_API_BASE ++ lit "/crm/v3/objects/contacts")
        ∨ (fetch_method call = lit "PATCH"
           ∧ ∃ encoded,
               url call = HUBSPOT_API_BASE ++ lit "/crm/v3/objects/contacts/" ++ encoded
                            ++ lit "?idProperty=email"
               ∧ Forall (λ c, uriUnreserved c = true ∨ c = 0x25%N) encoded
               ∧ Forall (λ c, c ∉ [0x2F; 0x3F; 0x23; 0x26]%N) encoded).
Proof.
  intros Hunits. forwarding_paths.
  all: added_calls.
  all: intros call Hcall.
  all: repeat match goal with
         | H : _ ∈ [] |- _ => by apply elem_of_nil in H
         | H : _ ∈ _ :: _ |- _ => apply elem_of_cons in H as [->|H]
         end; cbn [fetch_method url].
  all: first [ by left | right; split; [reflexivity|] ].
  all: eexists; split; [reflexivity|].
  all: match goal with
       | H : encodeURIComponent _ = Some _ |- _ =>
           pose proof (encodeURIComponent_alphabet _ _ Hunits H) as Hsafe
       end.
  all: split; [exact Hsafe|].
  all: eapply Forall_impl; [exact Hsafe | apply safe_not_delimiter].
Qed.

Lemma forwarding_urls_witness :
  ∃ new,
    calls (syncLeadToHubSpot (host := sampleHost sampleToken crmCreates)
             sampleContact (sampleState ∅)).2
    = calls (sampleState ∅) ++ new
    ∧ ∀ call, call ∈ new → fetch_method call = lit "PATCH" →
        Forall (λ c, c ≠ 0x3F%N)
          (drop (length (lit "https://api.hubapi.com/crm/v3/objects/contacts/"))
             (take (length (url call) - length (lit "?idProperty=email")) (url call))).
Proof.
  assert (Forall (λ c, (c < 0x10000)%N) (email sampleContact)) as Hunits
    by (apply (bool_decide_unpack _); vm_compute; exact I).
  destruct (forwarding_urls (host := sampleHost sampleToken crmCreates)
              sampleContact (sampleState ∅) Hunits) as (new & Hcalls & Hnew).
  exists new. split; [exact Hcalls|].
  intros call Hcall Hpatch.
  destruct (Hnew call Hcall) as [[Hpost _]|(_ & encoded & Hurl & _ & Hsafe)].
  - rewrite Hpatch in Hpost. vm_compute in Hpost. discriminate Hpost.
  - rewrite Hurl.
    change (HUBSPOT_API_BASE ++ lit "/crm/v3/objects/contacts/" ++ encoded
              ++ lit "?idProperty=email")
      with (lit "https://api.hubapi.com/crm/v3/objects/contacts/"
              ++ encoded ++ lit "?idProperty=email").
    rewrite app_assoc, take_app_length'.
    + rewrite drop_app_length. eapply Forall_impl; [exact Hsafe|].
      intros c Hc ->. apply Hc. right. by left.
    + rewrite !length_app. lia.
Defined.

Section Encodable.

Lemma encodeURIComponent_total (s : jsstring) :
  Forall (λ c, isHighSurrogate c = false ∧ isLowSurrogate c = false) s →
  is_Some (encodeURIComponent s).
Proof.
  induction 1 as [|c rest [Hh Hl] _ [t IH]]; [by eexists|].
  cbn [encodeURIComponent]. rewrite Hh, Hl, IH.
  destruct (uriUnreserved c); by eexists.
Qed.

End Encodable.

(** X17.  The forwarding throws a [URIError] only for an address that holds
    a surrogate code unit: for every other address the update is attempted
    whenever a token is configured and the lead has a name. *)
Theorem forwarding_encodes_without_surrogates {W : Type} {host : Host W}
    (lead : Lead) (st : State W) :
  Forall (λ c, isHighSurrogate c = false ∧ isLowSurrogate c = false) (email lead) →
  (syncLeadToHubSpot lead st).1 ≠ Throw URIError
  ∧ (HUBSPOT_ACCESS_TOKEN ≠ [] → name lead ≠ None →
     ∃ patch more,
       calls (syncLeadToHubSpot lead st).2 = calls st ++ patch :: more
       ∧ fetch_method patch = lit "PATCH").
Proof.
  intros Hplain. destruct (encodeURIComponent_total _ Hplain) as [encoded He].
  forwarding_paths.
  all: first [ congruence | split; [discriminate|] ].
  all: intros Ht Hn; first [ congruence | by eexists _, _ ].
Qed.

Lemma forwarding_encodes_without_surrogates_witness :
  ∃ patch more,
    calls (syncLeadToHubSpot (host := sampleHost sampleToken crmCreates)
             sampleContact (sampleState ∅)).2
    = calls (sampleState ∅) ++ patch :: more
    ∧ fetch_method patch = lit "PATCH".
Proof.
  assert (Forall (λ c, isHighSurrogate c = false ∧ isLowSurrogate c = false)
            (email sampleContact)) as Hplain
    by (apply (bool_decide_unpack _); vm_compute; exact I).
  destruct (forwarding_encodes_without_surrogates
              (host := sampleHost sampleToken crmCreates)
              sampleContact (sampleState ∅) Hplain) as [_ Hpatch].
  apply Hpatch; discriminate.
Defined.

(** ** Accepted addresses *)

Lemma notSpaceOrAt_true (c : N) :
  notSpaceOrAt c = true → isWhiteSpace c = false ∧ c ≠ 0x40%N.
Proof.
  unfold notSpaceOrAt. rewrite negb_true_iff, orb_false_iff, N.eqb_neq. done.
Qed.

Lemma no_at_sign (s : jsstring) :
  Forall (λ c, notSpaceOrAt c = true) s → filter (λ c, c = 0x40%N) s = [].
Proof.
  induction 1 as [|c s Hc _ IH]; [done|].
  apply notSpaceOrAt_true in Hc as [_ Hc]. by rewrite filter_cons_False.
Qed.

(** X18.  An address the pattern accepts holds exactly one at sign and no
    white space at all, and it is at least six code units long; so the
    shortest accepted addresses have the form [a@b.cd], and trimming an
    accepted address changes nothing. *)
Theorem accepted_address_facts (s : jsstring) :
  test emailRegex s = true →
  length (filter (λ c, c = 0x40%N) s) = 1%nat
  ∧ Forall (λ c, isWhiteSpace c = false) s
  ∧ (6 ≤ length s)%nat
  ∧ trim s = s.
Proof.
  intros Hs. apply emailRegex_shape in Hs
    as (localPart & domain & suffix & -> & Hl & Hd & Hx & Fl & Fd & Fx).
  assert (Forall (λ c, isWhiteSpace c = false)
            (localPart ++ [0x40%N] ++ domain ++ [0x2E%N] ++ suffix)) as Hvisible.
  { assert (∀ l, Forall (λ c, notSpaceOrAt c = true) l →
                 Forall (λ c, isWhiteSpace c = false) l) as Himpl.
    { intros l Hl'. eapply Forall_impl; [exact Hl'|].
      intros c Hc. by apply notSpaceOrAt_true in Hc as [? _]. }
    rewrite !Forall_app, !Forall_singleton. auto 10. }
  split; [|split; [exact Hvisible|split]].
  - rewrite !filter_app, !length_app, (no_at_sign _ Fl), (no_at_sign _ Fd), (no_at_sign _ Fx).
    reflexivity.
  - rewrite !length_app. destruct localPart, domain; simpl in *; try done; lia.
  - destruct (trim_spec (localPart ++ [0x40%N] ++ domain ++ [0x2E%N] ++ suffix))
      as (ws1 & ws2 & Hs & H1 & H2).
    set (s := localPart ++ [0x40%N] ++ domain ++ [0x2E%N] ++ suffix) in *.
    assert (ws1 = []) as ->.
    { destruct ws1 as [|c ws1]; [done|]. exfalso.
      apply Forall_cons in H1 as [Hc _].
      rewrite Forall_forall in Hvisible.
      specialize (Hvisible c). rewrite Hs in Hvisible.
      rewrite Hvisible in Hc; [done | by left]. }
    assert (ws2 = []) as ->.
    { destruct ws2 as [|c ws2] using rev_ind; [done|]. exfalso.
      apply Forall_app in H2 as [_ [Hc _]%Forall_cons].
      rewrite Forall_forall in Hvisible.
      specialize (Hvisible c). rewrite Hs in Hvisible.
      rewrite Hvisible in Hc; [done|].
      rewrite !elem_of_app. right. right. right. by left. }
    by rewrite app_nil_r in Hs.
Qed.

Lemma accepted_address_facts_witness :
  length (filter (λ c, c = 0x40%N) (lit "a@b.co")) = 1%nat
  ∧ Forall (λ c, isWhiteSpace c = false) (lit "a@b.co")
  ∧ (6 ≤ length (lit "a@b.co"))%nat
  ∧ trim (lit "a@b.co") = lit "a@b.co".
Proof. apply accepted_address_facts. vm_compute. reflexivity. Defined.

(** ** What is said about a failed call *)

Section ErrorMessage.
Context {W : Type} {host : Host W}.



End ErrorMessage.

